(** * Clusterwise linear regression ([clr.py]): a shallow embedding

    The numpy code of [src/clr.py] is embedded over rationals: a 1-D
    float array is a [list Q], an [N]x[k] array is the list of its [N]
    rows, an integer array ([labels], [constr]) is a [list Z].  Python
    exceptions are [None] in an [option] result.  The regressor
    collaborator ([clone]/[fit]/[predict]) and the transcendental functions
    of the fuzzy variant are parameters of the development.

    Where a rounding decides what the code returns it is modelled: the
    group means of [reassign_labels] are float64 means ([Np.round64]), and
    the objective of [clr] overflows to an infinity the way [np.mean]
    does.  Elsewhere a value is the exact rational that the float
    approximates. *)

From Stdlib Require Import List ZArith QArith Qabs Lia Bool.
Import ListNotations.

Open Scope Z_scope.

(** ** Array helpers *)

Module Np.

(** [range(n)] with Python integers. *)
Fixpoint range_from (start : Z) (n : nat) : list Z :=
  match n with
  | O => []
  | S n' => start :: range_from (start + 1) n'
  end.

Definition range (n : Z) : list Z := range_from 0 (Z.to_nat n).

(** [np.sum] of a vector. *)
Definition sum (v : list Q) : Q := fold_right Qplus 0%Q v.

(** Element [i] of a vector (callers stay in range). *)
Definition get (v : list Q) (i : Z) : Q := nth (Z.to_nat i) v 0%Q.

(** Column [m[:, c]] of a matrix given by rows. *)
Definition col (m : list (list Q)) (c : Z) : list Q :=
  map (fun row => get row c) m.

(** The entries of [a] (rows of a matrix, entries of a vector) at which
    [mask] holds, for a mask of the length of [a]; the indexing [a[mask]]
    with its length check is [NpMore.masked]. *)
Fixpoint select {A : Type} (mask : list bool) (a : list A) : list A :=
  match mask, a with
  | b :: mask', x :: a' => if b then x :: select mask' a' else select mask' a'
  | _, _ => []
  end.

(** Masked store [a[mask] = v]. *)
Fixpoint assign {A : Type} (mask : list bool) (v : A) (a : list A) : list A :=
  match mask, a with
  | b :: mask', x :: a' => (if b then v else x) :: assign mask' v a'
  | _, _ => a
  end.

(** The scan of [np.argmin] over a non-empty vector: [i] is the index of the
    next entry, [best_i] and [best] the running first minimum. *)
Fixpoint argmin_from (i best_i : Z) (best : Q) (v : list Q) : Z :=
  match v with
  | [] => best_i
  | x :: v' =>
      if Qle_bool best x then argmin_from (i + 1) best_i best v'
      else argmin_from (i + 1) i x v'
  end.

(** [np.argmin(v)]; an empty vector raises [ValueError]. *)
Definition argmin (v : list Q) : option Z :=
  match v with
  | [] => None
  | x :: v' => Some (argmin_from 1 0 x v')
  end.

(** [np.argmax(v)] is the same scan on the negated entries. *)
Definition argmax (v : list Q) : option Z := argmin (map Qopp v).

(** A sequence of fallible steps, left to right. *)
Fixpoint mapM {A B : Type} (f : A -> option B) (l : list A) : option (list B) :=
  match l with
  | [] => Some []
  | x :: l' =>
      match f x with
      | None => None
      | Some y =>
          match mapM f l' with
          | None => None
          | Some ys => Some (y :: ys)
          end
      end
  end.

(** [np.argmin(m, axis=1)] on an array of shape [(N, k)]: a reduction over
    an axis of length 0 raises. *)
Definition argmin_axis1 (k : Z) (m : list (list Q)) : option (list Z) :=
  if k =? 0 then None else mapM argmin m.

(** *** float64 rounding

    [round64 x] is the float64 nearest to the rational [x], ties to the
    even significand: 53 significant bits, and multiples of [2^-1074]
    below the normal range.  A result beyond the largest float64 is an
    infinity in numpy, which a rational cannot be: there [round64] is the
    value an unbounded exponent would give. *)

(** [floor(log2(n / d))]. *)
Definition ilog2 (n d : positive) : Z :=
  let e := Z.log2 (Z.pos n) - Z.log2 (Z.pos d) in
  if 0 <=? e then
    if Z.pos d * 2 ^ e <=? Z.pos n then e else e - 1
  else
    if Z.pos d <=? Z.pos n * 2 ^ (- e) then e else e - 1.

(** The integer nearest to [num / den], ties to even, for [den > 0]. *)
Definition round_half_even (num den : Z) : Z :=
  let qt := num / den in
  match 2 * (num mod den) ?= den with
  | Lt => qt
  | Gt => qt + 1
  | Eq => if Z.even qt then qt else qt + 1
  end.

Definition round_pos (n d : positive) : Q :=
  let s := Z.min (52 - ilog2 n d) 1074 in
  if 0 <=? s then
    Qmake (round_half_even (Z.pos n * 2 ^ s) (Z.pos d)) (Z.to_pos (2 ^ s))
  else
    inject_Z (round_half_even (Z.pos n) (Z.pos d * 2 ^ (- s)) * 2 ^ (- s)).

Definition round64 (x : Q) : Q :=
  let r := Qred x in
  match Qnum r with
  | 0 => 0%Q
  | Z.pos n => round_pos n (Qden r)
  | Z.neg n => (- round_pos n (Qden r))%Q
  end.

(** [x] is a float64: the entries of a float array are. *)
Definition is_float (x : Q) : Prop := (round64 x == x)%Q.

(** float64 addition and division. *)
Definition fadd (a b : Q) : Q := round64 (a + b).
Definition fdiv (a b : Q) : Q := round64 (a / b).

(** [np.add.reduce] down a column: the rows are added one after the
    other, every partial sum rounded. *)
Definition fsum (v : list Q) : Q :=
  match v with
  | [] => 0%Q
  | x :: v' => fold_left fadd v' x
  end.

(** [np.mean(m, axis=0)] on an array of shape [(n, k)]: per column, the
    float64 sum over the rows divided by [n].  With [n = 0] numpy gives a
    vector of NaN (whose argmin is 0); here the entries are [0/0 = 0],
    with the same argmin. *)
Definition mean_axis0 (k : Z) (m : list (list Q)) : list Q :=
  map (fun c => fdiv (fsum (col m c)) (inject_Z (Z.of_nat (length m)))) (range k).

(** [a.max()] of an integer array; the empty array raises. *)
Definition max (a : list Z) : option Z :=
  match a with
  | [] => None
  | x :: a' => Some (fold_left Z.max a' x)
  end.

End Np.

(** ** Label reassignment *)

(** One pass of the loop body of [reassign_labels]:
    [labels[constr == c_id] = np.argmin(np.mean(scores[constr == c_id], axis=0))].
    A boolean mask whose length is not [N] raises [IndexError]. *)
Definition reassign_group (k : Z) (scores : list (list Q)) (constr : list Z)
    (labels : list Z) (c_id : Z) : option (list Z) :=
  let mask := map (Z.eqb c_id) constr in
  if negb (length mask =? length scores)%nat then None
  else
    match Np.argmin (Np.mean_axis0 k (Np.select mask scores)) with
    | None => None
    | Some l => Some (Np.assign mask l labels)
    end.

(** [reassign_labels(scores, constr)], for [scores] of shape [(N, k)].
    [uninit] is the content of the array returned by
    [np.empty(N, dtype=int)], which the constrained branch overwrites only
    at the points whose group id the loop visits. *)
Definition reassign_labels (uninit : list Z) (k : Z) (scores : list (list Q))
    (constr : option (list Z)) : option (list Z) :=
  match constr with
  | None => Np.argmin_axis1 k scores
  | Some cs =>
      match Np.max cs with
      | None => None
      | Some mx =>
          fold_left
            (fun acc c_id =>
               match acc with
               | None => None
               | Some labels => reassign_group k scores cs labels c_id
               end)
            (Np.range (mx + 1)) (Some uninit)
      end
  end.

(** ** Floating-point results

    An objective is a float: a finite value, an infinity or NaN.  The
    comparisons of [best_clr] and the objective of [clr] (the mean of an
    empty array, a mean that overflows) need the non-finite values. *)

Inductive fval : Type :=
| Fin (q : Q)
| PInf
| NInf
| NaN.

(** IEEE [a < b]: false as soon as one side is NaN. *)
Definition flt (a b : fval) : bool :=
  match a, b with
  | NaN, _ | _, NaN => false
  | _, NInf => false
  | NInf, _ => true
  | PInf, _ => false
  | Fin _, PInf => true
  | Fin x, Fin y => negb (Qle_bool y x)
  end.

(** IEEE [a <= b]. *)
Definition fle (a b : fval) : bool :=
  match a, b with
  | NaN, _ | _, NaN => false
  | NInf, _ => true
  | _, PInf => true
  | _, NInf => false
  | PInf, _ => false
  | Fin x, Fin y => Qle_bool x y
  end.

Definition is_nan (a : fval) : bool :=
  match a with NaN => true | _ => false end.

Module NpMore.

(** From this magnitude on a float64 result rounds to an infinity:
    [2^1024 - 2^970], half a unit beyond the largest float64. *)
Definition overflow_bound : Q := inject_Z (2 ^ 1024 - 2 ^ 970).

(** [np.mean] of a vector: NaN on the empty vector, and an infinity once
    the sum is out of the float64 range (its call site averages squared
    distances, which are not negative, so a partial sum overflows exactly
    when the whole sum does). *)
Definition mean (v : list Q) : fval :=
  match v with
  | [] => NaN
  | _ =>
      let s := Np.sum v in
      if Qle_bool overflow_bound s then PInf
      else if Qle_bool s (- overflow_bound) then NInf
      else Fin (s / inject_Z (Z.of_nat (length v)))
  end.

(** [np.sum(mask)] of a boolean array. *)
Definition count (mask : list bool) : Z :=
  fold_right (fun (b : bool) acc => if b then acc + 1 else acc) 0 mask.

(** [a == c] on an integer array. *)
Definition eq_mask (a : list Z) (c : Z) : list bool :=
  map (fun l => l =? c) a.

(** Number of columns [m.shape[1]] of a matrix given by its rows. *)
Definition ncols (m : list (list Q)) : Z :=
  Z.of_nat (length (hd [] m)).

(** [v[i]] with Python's index rules: negative indices count from the end,
    anything else out of range raises [IndexError]. *)
Definition item (v : list Q) (i : Z) : option Q :=
  let n := Z.of_nat (length v) in
  if (0 <=? i) && (i <? n) then Some (Np.get v i)
  else if (- n <=? i) && (i <? 0) then Some (Np.get v (n + i))
  else None.

(** [m[np.arange(N), idx]]: one entry per row. *)
Definition take_along (m : list (list Q)) (idx : list Z) : option (list Q) :=
  if negb (length m =? length idx)%nat then None
  else Np.mapM (fun '(row, i) => item row i) (combine m idx).

(** Elementwise binary operation on two vectors of one shape. *)
Definition zip_with (f : Q -> Q -> Q) (a b : list Q) : list Q :=
  map (fun '(x, z) => f x z) (combine a b).

(** Broadcasting of a 1-D array to length [n]: an array of that length is
    itself, an array of length 1 is repeated, any other raises
    [ValueError]. *)
Definition broadcast (n : nat) (v : list Q) : option (list Q) :=
  if (length v =? n)%nat then Some v
  else
    match v with
    | [x] => Some (repeat x n)
    | _ => None
    end.

(** Boolean-mask indexing [a[mask]]: a mask of another length than the
    array raises [IndexError]. *)
Definition masked {A : Type} (mask : list bool) (a : list A) : option (list A) :=
  if (length mask =? length a)%nat then Some (Np.select mask a) else None.

(** [np.sum(np.square(X - center), axis=1)]: squared distance of every row
    to [center]. *)
Definition sqdist_rows (X : list (list Q)) (center : list Q) : list Q :=
  map (fun row => Np.sum (zip_with (fun a b => (a - b) * (a - b))%Q row center)) X.

(** The rows of the [(N, k)] array whose columns are [cols]. *)
Definition rows_of_cols (N : nat) (cols : list (list Q)) : list (list Q) :=
  map (fun i => map (fun c => Np.get c i) cols) (Np.range (Z.of_nat N)).

(** [np.isclose(a, b, rtol, atol)] on finite values:
    [|a - b| <= atol + rtol * |b|]. *)
Definition isclose (rtol atol a b : Q) : bool :=
  Qle_bool (Qabs (a - b)) (atol + rtol * Qabs b).

(** [np.allclose] on two vectors of one shape (both call sites compare
    arrays of equal shape; numpy broadcasts or raises otherwise). *)
Fixpoint allclose (rtol atol : Q) (a b : list Q) : bool :=
  match a, b with
  | [], [] => true
  | x :: a', z :: b' => isclose rtol atol x z && allclose rtol atol a' b'
  | _, _ => false
  end.

(** numpy's default tolerances. *)
Definition default_rtol : Q := 1 # 100000.
Definition default_atol : Q := 1 # 100000000.

End NpMore.

(** ** The regressor collaborator *)

Record Regressor : Type := {
  model : Type;
  clone : model -> model;
  fit : model -> list (list Q) -> list Q -> model;
  predict : model -> list (list Q) -> list Q
}.

(** The tuple [(labels, models, weights, obj)] returned by the optimizers. *)
Record result (M : Type) : Type := {
  r_labels : list Z;
  r_models : list M;
  r_weights : list Q;
  r_obj : fval
}.
Arguments r_labels {M}.
Arguments r_models {M}.
Arguments r_weights {M}.
Arguments r_obj {M}.

(** ** Hard CLR *)

Section Clr.

Context (R : Regressor).
Variables (X : list (list Q)) (y : list Q) (k : Z) (kmeans_X : Q).
Variable constr : option (list Z).
(** Content of the [np.empty] label array of the [n]-th call of
    [reassign_labels]. *)
Variable uninit : nat -> list Z.

Record clr_state : Type := {
  labels : list Z;
  models : list (model R);
  scores : list (list Q);
  it : nat
}.

(** The body of the "rebuild models" loop for cluster [cl_idx]: a cluster
    with no point keeps its model; otherwise [X[labels == cl_idx]] and
    [y[labels == cl_idx]] raise [IndexError] when the labels are not one
    per row of [X] and one per entry of [y]. *)
Definition rebuild_model (lbl : list Z) (cl_idx : Z) (m : model R)
    : option (model R) :=
  let mask := NpMore.eq_mask lbl cl_idx in
  if NpMore.count mask =? 0 then Some m
  else
    match NpMore.masked mask X, NpMore.masked mask y with
    | Some Xc, Some yc => Some (fit R m Xc yc)
    | _, _ => None
    end.

(** The "rebuild models" loop. *)
Definition rebuild_models (lbl : list Z) (ms : list (model R))
    : option (list (model R)) :=
  Np.mapM (fun '(cl_idx, m) => rebuild_model lbl cl_idx m)
          (combine (Np.range k) ms).

(** Column [cl_idx] of [scores] after the "reassign points" loop body.  The
    prediction is stored in a column of length [N], and so is
    [(y - preds[:, cl_idx]) ** 2]: a prediction or a target vector of
    length 1 is broadcast, one of another length than [N] raises. *)
Definition score_column (lbl : list Z) (cl_idx : Z) (m : model R) : option (list Q) :=
  match NpMore.broadcast (length X) (predict R m X),
        NpMore.broadcast (length X) y with
  | Some p, Some y' =>
      let s := NpMore.zip_with (fun a b => (a - b) * (a - b))%Q y' p in
      let mask := NpMore.eq_mask lbl cl_idx in
      if NpMore.count mask =? 0 then Some s
      else if negb (Qle_bool kmeans_X 0) then
        match NpMore.masked mask X with
        | None => None
        | Some Xc =>
            let center := Np.mean_axis0 (NpMore.ncols X) Xc in
            Some (NpMore.zip_with
                    (fun a d => a + kmeans_X * d)%Q s (NpMore.sqdist_rows X center))
        end
      else Some s
  | _, _ => None
  end.

(** One iteration of the loop of [clr], up to the convergence test. *)
Definition clr_iter (st : clr_state) : option clr_state :=
  match rebuild_models (labels st) (models st) with
  | None => None
  | Some ms =>
      match Np.mapM (fun '(cl_idx, m) => score_column (labels st) cl_idx m)
                    (combine (Np.range k) ms) with
      | None => None
      | Some cols =>
          let sc := NpMore.rows_of_cols (length X) cols in
          match reassign_labels (uninit (it st)) k sc constr with
          | None => None
          | Some lbl =>
              Some {| labels := lbl; models := ms; scores := sc; it := S (it st) |}
          end
      end
  end.

(** [np.allclose(labels, labels_prev)] with the default tolerances. *)
Definition labels_close (lbl lbl_prev : list Z) : bool :=
  NpMore.allclose NpMore.default_rtol NpMore.default_atol
    (map inject_Z lbl) (map inject_Z lbl_prev).

(** [for it in range(max_iter): ...; if np.allclose(...): break]. *)
Fixpoint clr_loop (max_iter : nat) (st : clr_state) : option clr_state :=
  match max_iter with
  | O => Some st
  | S n =>
      match clr_iter st with
      | None => None
      | Some st' =>
          if labels_close (labels st') (labels st) then Some st'
          else clr_loop n st'
      end
  end.

(** The same iterations with no convergence test: the state after exactly
    [n] passes of the loop body. *)
Fixpoint clr_iterate (n : nat) (st : clr_state) : option clr_state :=
  match n with
  | O => Some st
  | S n' =>
      match clr_iterate n' st with
      | None => None
      | Some st' => clr_iter st'
      end
  end.

(** [weights]: the count of every cluster over the total count, for at
    least one point (with none numpy divides 0 by 0 and the weights are
    NaN, which a rational cannot be). *)
Definition clr_weights (lbl : list Z) : list Q :=
  let counts := map (fun c => inject_Z (NpMore.count (NpMore.eq_mask lbl c)))
                    (Np.range k) in
  map (fun c => (c / Np.sum counts)%Q) counts.

(** Initial state: [labels0] is the supplied labelling, or the draw of
    [np.random.choice(k, size=N)]; [scores0] the content of
    [np.empty((N, k))]. *)
Definition clr_init (lr : model R) (labels0 : list Z) (scores0 : list (list Q))
    : clr_state :=
  {| labels := labels0;
     models := map (fun _ => clone R lr) (Np.range k);
     scores := scores0;
     it := O |}.

(** [clr(X, y, k, kmeans_X, constr, lr, max_iter, labels)]; printing is left
    out. *)
Definition clr (lr : model R) (max_iter : nat) (labels0 : list Z)
    (scores0 : list (list Q)) : option (result (model R)) :=
  match clr_loop max_iter (clr_init lr labels0 scores0) with
  | None => None
  | Some st =>
      match NpMore.take_along (scores st) (labels st) with
      | None => None
      | Some picked =>
          Some {| r_labels := labels st;
                  r_models := models st;
                  r_weights := clr_weights (labels st);
                  r_obj := NpMore.mean picked |}
      end
  end.

End Clr.

(** ** Fuzzy CLR *)

(** [np.exp], [np.sqrt], [np.log] and [np.pi]: functions and a constant of
    the floating-point library, kept abstract. *)
Record Numeric : Type := {
  exp : Q -> Q;
  sqrt : Q -> Q;
  log : Q -> Q;
  pi : Q
}.

Module NpMat.

(** [m / m.sum(axis=1, keepdims=True)], for rows whose sum is not zero
    (numpy turns a row that sums to zero into NaN). *)
Definition normalize_rows (m : list (list Q)) : list (list Q) :=
  map (fun row => let s := Np.sum row in map (fun x => (x / s)%Q) row) m.

(** [w[:, np.newaxis] * X]: row [i] of [X] scaled by [w[i]]. *)
Definition scale_rows (w : list Q) (X : list (list Q)) : list (list Q) :=
  map (fun '(wi, row) => map (Qmult wi) row) (combine w X).

(** [np.sum(m, axis=0)] on an array of shape [(n, d)]. *)
Definition sum_axis0 (d : Z) (m : list (list Q)) : list Q :=
  map (fun c => Np.sum (Np.col m c)) (Np.range d).

(** [np.argmax(m, axis=1)] on an array of shape [(N, k)]. *)
Definition argmax_axis1 (k : Z) (m : list (list Q)) : option (list Z) :=
  if k =? 0 then None else Np.mapM Np.argmax m.

End NpMat.

Section Fuzzy.

Context (F : Numeric) (R : Regressor).
Variables (X : list (list Q)) (y : list Q) (k : Z) (kmeans_X : Q).

Record fuzzy_state : Type := {
  q : list (list Q);
  fmodels : list (model R);
  lmbda : list Q;
  probs : list (list Q);
  fit_count : nat
}.

(** What the M step and the E step compute for one cluster. *)
Record cluster : Type := {
  c_model : model R;
  c_lmbda : Q;
  c_sigma_sq : Q;
  c_center : list Q;
  c_probs : list Q
}.

(** [(y - models[cl_idx].predict(X)) ** 2]. *)
Definition sq_residuals (p : list Q) : list Q :=
  NpMore.zip_with (fun a b => (a - b) * (a - b))%Q y p.

(** M step then E-step likelihood column of cluster [cl_idx]: the model is
    fitted once, and predicts the same vector in both steps.  Operands of
    different lengths raise.  The values are those of the code as long as
    no divisor ([q_sum], the number of points, [2 * sigma_sq],
    [sqrt(pi * 2 * sigma_sq)]) is zero: numpy then yields an infinity or
    NaN, which a rational cannot be. *)
Definition fuzzy_cluster (qm : list (list Q)) (cl_idx : Z) (m : model R)
    : option cluster :=
  let qc := Np.col qm cl_idx in
  let q_sqrt := map (sqrt F) qc in
  let m' := fit R m (NpMat.scale_rows q_sqrt X) (NpMore.zip_with Qmult q_sqrt y) in
  let p := predict R m' X in
  if negb ((length p =? length X)%nat && (length y =? length X)%nat) then None
  else
    let q_sum := Np.sum qc in
    let center :=
      map (fun s => (s / q_sum)%Q)
          (NpMat.sum_axis0 (NpMore.ncols X) (NpMat.scale_rows qc X)) in
    let lm := (q_sum / inject_Z (Z.of_nat (length X)))%Q in
    let dist := NpMore.sqdist_rows X center in
    let sigma :=
      (Np.sum (NpMore.zip_with Qmult qc
                 (NpMore.zip_with (fun r d => r + kmeans_X * d)%Q
                    (sq_residuals p) dist)) / q_sum)%Q in
    let pr :=
      NpMore.zip_with
        (fun r d =>
           (exp F ((- r - kmeans_X * d) / (2 * sigma))
            / sqrt F (pi F * 2 * sigma))%Q)
        (sq_residuals p) dist in
    Some {| c_model := m'; c_lmbda := lm; c_sigma_sq := sigma;
            c_center := center; c_probs := pr |}.

(** One iteration of the loop of [fuzzy_clr], up to the convergence test. *)
Definition fuzzy_iter (st : fuzzy_state) : option fuzzy_state :=
  match Np.mapM (fun '(cl_idx, m) => fuzzy_cluster (q st) cl_idx m)
                (combine (Np.range k) (fmodels st)) with
  | None => None
  | Some cs =>
      let N := length X in
      let qcols := map (fun c => map (Qmult (c_lmbda c)) (c_probs c)) cs in
      Some {| q := NpMat.normalize_rows (NpMore.rows_of_cols N qcols);
              fmodels := map c_model cs;
              lmbda := map c_lmbda cs;
              probs := NpMore.rows_of_cols N (map c_probs cs);
              fit_count := S (fit_count st) |}
  end.

(** [np.allclose(q_prev, q, atol=1e-5)]: the relative tolerance keeps its
    default. *)
Definition q_close (q_prev q_new : list (list Q)) : bool :=
  NpMore.allclose NpMore.default_rtol (1 # 100000) (concat q_prev) (concat q_new).

Fixpoint fuzzy_loop (max_iter : nat) (st : fuzzy_state) : option fuzzy_state :=
  match max_iter with
  | O => Some st
  | S n =>
      match fuzzy_iter st with
      | None => None
      | Some st' =>
          if q_close (q st) (q st') then Some st' else fuzzy_loop n st'
      end
  end.

Fixpoint fuzzy_iterate (n : nat) (st : fuzzy_state) : option fuzzy_state :=
  match n with
  | O => Some st
  | S n' =>
      match fuzzy_iterate n' st with
      | None => None
      | Some st' => fuzzy_iter st'
      end
  end.

(** [-np.sum(np.log(np.sum(lmbda * probs, axis=1)))]. *)
Definition neg_loglike (lm : list Q) (pr : list (list Q)) : Q :=
  (- Np.sum (map (fun row => log F (Np.sum (NpMore.zip_with Qmult lm row))) pr))%Q.

(** Initial state: [rand] is the draw of [np.random.rand(N, k)]; [lmbda0]
    and [probs0] are the contents of the [np.empty] buffers. *)
Definition fuzzy_init (lr : model R) (rand : list (list Q)) (lmbda0 : list Q)
    (probs0 : list (list Q)) : fuzzy_state :=
  {| q := NpMat.normalize_rows rand;
     fmodels := map (fun _ => clone R lr) (Np.range k);
     lmbda := lmbda0;
     probs := probs0;
     fit_count := O |}.

(** [fuzzy_clr(X, y, k, kmeans_X, max_iter, lr)]; printing is left out.
    The objective is a finite value here: it is the code's objective for
    the runs in which no pass divides by zero and every logarithm is taken
    of a positive number; in the other runs the code returns NaN or an
    infinity. *)
Definition fuzzy_clr (lr : model R) (max_iter : nat) (rand : list (list Q))
    (lmbda0 : list Q) (probs0 : list (list Q)) : option (result (model R)) :=
  match fuzzy_loop max_iter (fuzzy_init lr rand lmbda0 probs0) with
  | None => None
  | Some st =>
      let loglike := neg_loglike (lmbda st) (probs st) in
      match NpMat.argmax_axis1 k (q st) with
      | None => None
      | Some lbl =>
          match rebuild_models R X y k lbl (fmodels st) with
          | None => None
          | Some ms =>
              Some {| r_labels := lbl;
                      r_models := ms;
                      r_weights := lmbda st;
                      r_obj := Fin loglike |}
          end
      end
  end.

End Fuzzy.

(** ** Multi-start driver *)

Inductive exn : Type :=
| UnboundLocalError
| Raised.

Inductive outcome (A : Type) : Type :=
| Ok (a : A)
| Err (e : exn).
Arguments Ok {A}.
Arguments Err {A}.

Section BestOf.

Context {M : Type}.
(** The [i]-th call [clr_func(X, y, k, **kwargs)] of the loop. *)
Variable clr_func : nat -> option (result M).

(** [best_obj] and, once assigned, [best_labels], [best_models] and
    [best_weights]. *)
Record best_state : Type := {
  best_obj : fval;
  best_vars : option (list Z * list M * list Q)
}.

Definition best_step (st : best_state) (i : nat) : option best_state :=
  match clr_func i with
  | None => None
  | Some r =>
      if flt (r_obj r) (best_obj st) then
        Some {| best_obj := r_obj r;
                best_vars := Some (r_labels r, r_models r, r_weights r) |}
      else Some st
  end.

Fixpoint best_loop (tries : list nat) (st : best_state) : option best_state :=
  match tries with
  | [] => Some st
  | i :: tries' =>
      match best_step st i with
      | None => None
      | Some st' => best_loop tries' st'
      end
  end.

(** The body of [best_clr] once [clr_func] is chosen: returning unassigned
    variables raises [UnboundLocalError]. *)
Definition best_of (num_tries : nat) : outcome (result M) :=
  match best_loop (seq 0 num_tries) {| best_obj := PInf; best_vars := None |} with
  | None => Err Raised
  | Some st =>
      match best_vars st with
      | None => Err UnboundLocalError
      | Some (l, m, w) =>
          Ok {| r_labels := l; r_models := m; r_weights := w;
                r_obj := best_obj st |}
      end
  end.

End BestOf.

(** What one call of an optimizer takes from the process: the random draws
    and the contents of its uninitialised buffers. *)
Record draw : Type := {
  d_labels : list Z;
  d_rand : list (list Q);
  d_uninit : nat -> list Z;
  d_scores : list (list Q);
  d_lmbda : list Q;
  d_probs : list (list Q)
}.

(** The keyword arguments forwarded by [best_clr]. *)
Record kwargs (M : Type) : Type := {
  kw_kmeans_X : Q;
  kw_constr : option (list Z);
  kw_lr : M;
  kw_max_iter : nat
}.
Arguments kw_kmeans_X {M}.
Arguments kw_constr {M}.
Arguments kw_lr {M}.
Arguments kw_max_iter {M}.

Section BestClr.

Context (F : Numeric) (R : Regressor).
Variables (X : list (list Q)) (y : list Q) (k : Z).

(** [clr(X, y, k, **kwargs)] on the draw [d]. *)
Definition call_clr (kw : kwargs (model R)) (d : draw) : option (result (model R)) :=
  clr R X y k (kw_kmeans_X kw) (kw_constr kw) (d_uninit d)
      (kw_lr kw) (kw_max_iter kw) (d_labels d) (d_scores d).

(** [fuzzy_clr(X, y, k, **kwargs)] on the draw [d]; [fuzzy_clr] has no
    [constr] parameter, so passing one raises [TypeError]. *)
Definition call_fuzzy_clr (kw : kwargs (model R)) (d : draw)
    : option (result (model R)) :=
  match kw_constr kw with
  | Some _ => None
  | None =>
      fuzzy_clr F R X y k (kw_kmeans_X kw) (kw_lr kw) (kw_max_iter kw)
                (d_rand d) (d_lmbda d) (d_probs d)
  end.

(** [best_clr(X, y, k, fuzzy, num_tries, **kwargs)]; [world i] is what the
    [i]-th try draws. *)
Definition best_clr (fuzzy : bool) (num_tries : nat) (kw : kwargs (model R))
    (world : nat -> draw) : outcome (result (model R)) :=
  let clr_func := if fuzzy then call_fuzzy_clr kw else call_clr kw in
  best_of (fun i => clr_func (world i)) num_tries.

End BestClr.

(** ** Specification predicates *)

(** [j] is the first index at which [v] attains its minimum. *)
Definition first_min (v : list Q) (j : Z) : Prop :=
  0 <= j < Z.of_nat (length v) /\
  (forall i, 0 <= i < Z.of_nat (length v) -> (Np.get v j <= Np.get v i)%Q) /\
  (forall i, 0 <= i < j -> (Np.get v j < Np.get v i)%Q).

(** The rows of [scores] whose group id is [c_id]: [scores[constr == c_id]]. *)
Definition group_rows (scores : list (list Q)) (constr : list Z) (c_id : Z)
    : list (list Q) :=
  Np.select (map (Z.eqb c_id) constr) scores.


(** The state of the multi-start loop after it has kept the run [r]. *)
Definition kept {M : Type} (r : result M) : best_state :=
  {| best_obj := r_obj r;
     best_vars := Some (r_labels r, r_models r, r_weights r) |}.

(** What the [i]-th optimizer call inside [best_clr] returns. *)
Definition nth_try (F : Numeric) (R : Regressor) (X : list (list Q)) (y : list Q)
    (k : Z) (fuzzy : bool) (kw : kwargs (model R)) (world : nat -> draw) (i : nat)
    : option (result (model R)) :=
  (if fuzzy then call_fuzzy_clr F R X y k kw else call_clr R X y k kw) (world i).

(** ** Concrete collaborators and inputs *)

(** A regressor that predicts one constant: the mean of the targets it was
    fitted on, or the constant of its prototype before any fit. *)
Definition const_regressor : Regressor :=
  {| model := Q;
     clone := fun m => m;
     fit := fun _ _ y => (Np.sum y / inject_Z (Z.of_nat (length y)))%Q;
     predict := fun m X => map (fun _ => m) X |}.

(** Stand-ins for the numeric library where a run must be evaluated. *)
Definition toy_numeric : Numeric :=
  {| exp := fun _ => 1%Q; sqrt := fun _ => 1%Q; log := fun x => x; pi := 3%Q |}.

(** A process state with nothing drawn and empty buffers, and one for a
    two-point data set. *)
Definition empty_draw : draw :=
  {| d_labels := []; d_rand := []; d_uninit := fun _ => [];
     d_scores := []; d_lmbda := []; d_probs := [] |}.

Definition two_point_draw : draw :=
  {| d_labels := [0; 0]; d_rand := [[1]; [1]]%Q; d_uninit := fun _ => [0; 0];
     d_scores := [[0]; [0]]%Q; d_lmbda := [0%Q]; d_probs := [[0]; [0]]%Q |}.

(** Two points at one place whose targets, [2^700] and [-2^700], are so
    far apart that the squared residuals of their mean are beyond the
    float64 range; every draw of labels for one cluster is [[0; 0]]. *)
Definition far_X : list (list Q) := [[0]; [0]]%Q.
Definition far_y : list Q := [inject_Z (2 ^ 700); inject_Z (- 2 ^ 700)].
Definition far_draw : draw :=
  {| d_labels := [0; 0]; d_rand := [[1]; [1]]%Q; d_uninit := fun _ => [0; 0];
     d_scores := [[0]; [0]]%Q; d_lmbda := [0%Q]; d_probs := [[0]; [0]]%Q |}.

Definition plain_kwargs (max_iter : nat) : kwargs Q :=
  {| kw_kmeans_X := 0%Q; kw_constr := None; kw_lr := 0%Q;
     kw_max_iter := max_iter |}.

(** Optimizer results that only differ by their objective. *)
Definition bare_result (obj : fval) : result unit :=
  {| r_labels := []; r_models := []; r_weights := []; r_obj := obj |}.

(** Two runs, the second with a NaN objective. *)
Definition run_then_nan (i : nat) : option (result unit) :=
  Some (bare_result (if (i =? 0)%nat then Fin 1 else NaN)).

(** Three runs with objectives 3, 1, 1. *)
Definition three_runs (i : nat) : option (result unit) :=
  Some (bare_result (Fin (if (i =? 0)%nat then 3 else 1))).

(** The convergence test of the hard loop at the end of its [(j+1)]-th pass,
    were the loop to run that far from [st0]: the labels after [j + 1]
    passes against the labels after [j] passes. *)
Definition clr_close_at (R : Regressor) (X : list (list Q)) (y : list Q) (k : Z)
    (kmeans_X : Q) (constr : option (list Z)) (uninit : nat -> list Z)
    (st0 : clr_state R) (j : nat) : bool :=
  match clr_iterate R X y k kmeans_X constr uninit j st0,
        clr_iterate R X y k kmeans_X constr uninit (S j) st0 with
  | Some a, Some b => labels_close (labels R b) (labels R a)
  | _, _ => false
  end.

(** A hard-CLR run with more than 100000 clusters: three points, two of
    them in cluster 200000 and one in cluster 200001 at the start; an
    unfitted clone predicts 1000. *)
Definition wide_k : Z := 200002.
Definition wide_X : list (list Q) := [[0]; [0]; [0]]%Q.
Definition wide_y : list Q := [0; 10; 9]%Q.
Definition wide_labels0 : list Z := [200000; 200000; 200001].
Definition wide_init : clr_state const_regressor :=
  clr_init const_regressor wide_k 1000%Q wide_labels0 [].

(** The convergence test of the fuzzy loop at the end of its [(j+1)]-th
    pass: [q] before that pass against [q] after it. *)
Definition fuzzy_close_at (F : Numeric) (R : Regressor) (X : list (list Q))
    (y : list Q) (k : Z) (kmeans_X : Q) (st0 : fuzzy_state R) (j : nat) : bool :=
  match fuzzy_iterate F R X y k kmeans_X j st0,
        fuzzy_iterate F R X y k kmeans_X (S j) st0 with
  | Some a, Some b => q_close (q R a) (q R b)
  | _, _ => false
  end.

(** [lmbda * probs]: the responsibilities of a state before the rows are
    normalised; the sum of row [i] is the normaliser of row [i] of [q]. *)
Definition unnormalized (R : Regressor) (st : fuzzy_state R) : list (list Q) :=
  map (fun row => NpMore.zip_with Qmult (lmbda R st) row) (probs R st).

(** A small fuzzy run: two points, two clusters, a draw that is not
    row-normalised. *)
Definition small_fuzzy_init : fuzzy_state const_regressor :=
  fuzzy_init const_regressor 2 0%Q [[1; 3]; [2; 2]]%Q [0; 0]%Q [[0; 0]; [0; 0]]%Q.

(** A pass of the fuzzy loop from [st] divides by the number of points, by
    the responsibility mass [q_sum] of every cluster, by [2 * sigma_sq] and
    [sqrt(pi * 2 * sigma_sq)] of every cluster, and by the normaliser of
    every row.  [pass_defined] holds when none of these divisors is zero;
    numpy returns infinities or NaN otherwise, which the rationals do not
    have. *)
Definition nonzero (x : Q) : bool := negb (Qeq_bool x 0).

Definition pass_defined (F : Numeric) (R : Regressor) (X : list (list Q))
    (y : list Q) (k : Z) (kmeans_X : Q) (st : fuzzy_state R) : bool :=
  negb (length X =? 0)%nat &&
  match Np.mapM (fun '(cl_idx, m) => fuzzy_cluster F R X y kmeans_X (q R st) cl_idx m)
                (combine (Np.range k) (fmodels R st)),
        fuzzy_iter F R X y k kmeans_X st with
  | Some cs, Some st' =>
      forallb (fun '(cl_idx, cl) =>
                 nonzero (Np.sum (Np.col (q R st) cl_idx)) &&
                 nonzero (2 * c_sigma_sq R cl) &&
                 nonzero (sqrt F (pi F * 2 * c_sigma_sq R cl)))
              (combine (Np.range k) cs) &&
      forallb (fun row => nonzero (Np.sum row)) (unnormalized R st')
  | _, _ => false
  end.

(** The first [n] passes from [st0] are all defined. *)
Definition run_defined (F : Numeric) (R : Regressor) (X : list (list Q))
    (y : list Q) (k : Z) (kmeans_X : Q) (st0 : fuzzy_state R) (n : nat) : bool :=
  forallb (fun j =>
             match fuzzy_iterate F R X y k kmeans_X j st0 with
             | Some prev => pass_defined F R X y k kmeans_X prev
             | None => false
             end)
          (seq 0 n).

(** [j] is the first index at which [v] attains its maximum. *)
Definition first_max (v : list Q) (j : Z) : Prop :=
  0 <= j < Z.of_nat (length v) /\
  (forall i, 0 <= i < Z.of_nat (length v) -> (Np.get v i <= Np.get v j)%Q) /\
  (forall i, 0 <= i < j -> (Np.get v i < Np.get v j)%Q).

(** * Properties *)

(** ** Ranges and sequences of fallible steps *)

Lemma range_from_length (n : nat) (s : Z) : length (Np.range_from s n) = n.
Proof. revert s; induction n as [|n IH]; intros s; simpl; [reflexivity|]. now rewrite IH. Qed.

Lemma range_from_In (n : nat) (s z : Z) :
  In z (Np.range_from s n) <-> s <= z < s + Z.of_nat n.
Proof.
  revert s; induction n as [|n IH]; intros s; simpl.
  - split; [tauto | lia].
  - rewrite IH. lia.
Qed.

Lemma range_In (k z : Z) : In z (Np.range k) <-> 0 <= z < k.
Proof. unfold Np.range. rewrite range_from_In. lia. Qed.

Lemma range_length (k : Z) : length (Np.range k) = Z.to_nat k.
Proof. apply range_from_length. Qed.

Lemma range_from_nth (n : nat) (s : Z) (i : nat) :
  (i < n)%nat -> nth i (Np.range_from s n) 0 = s + Z.of_nat i.
Proof.
  revert s i; induction n as [|n IH]; intros s i Hi; [lia|].
  destruct i as [|i]; simpl; [lia|]. rewrite IH by lia. lia.
Qed.

Lemma mapM_length {A B} (f : A -> option B) l ys :
  Np.mapM f l = Some ys -> length ys = length l.
Proof.
  revert ys; induction l as [|x l IH]; simpl; intros ys H.
  - now inversion H.
  - destruct (f x); [|discriminate]. destruct (Np.mapM f l); [|discriminate].
    inversion H; subst; simpl. f_equal. now apply IH.
Qed.

Lemma mapM_nth {A B} (f : A -> option B) l ys da db i :
  Np.mapM f l = Some ys -> (i < length l)%nat ->
  f (nth i l da) = Some (nth i ys db).
Proof.
  revert ys i; induction l as [|x l IH]; simpl; intros ys i H Hi; [lia|].
  destruct (f x) eqn:Hx; [|discriminate].
  destruct (Np.mapM f l) eqn:Hl; [|discriminate].
  inversion H; subst. destruct i as [|i]; simpl; [assumption|].
  apply IH; [reflexivity | lia].
Qed.

Lemma mapM_total {A B} (f : A -> option B) l :
  (forall x, In x l -> f x <> None) -> exists ys, Np.mapM f l = Some ys.
Proof.
  induction l as [|x l IH]; simpl; intros H; [now eexists|].
  destruct (f x) eqn:Hx; [|exfalso; apply (H x); auto].
  destruct IH as [ys Hys]; [intros; apply H; auto|].
  rewrite Hys. now eexists.
Qed.

(** ** [np.argmin] returns the first index of the minimum *)

Lemma get_app_l (a b : list Q) (i : Z) :
  0 <= i < Z.of_nat (length a) -> Np.get (a ++ b) i = Np.get a i.
Proof. intros H. unfold Np.get. apply app_nth1. lia. Qed.

Lemma get_app_here (a : list Q) (x : Q) (b : list Q) :
  Np.get (a ++ x :: b) (Z.of_nat (length a)) = x.
Proof.
  unfold Np.get. rewrite Nat2Z.id, app_nth2 by lia.
  now rewrite Nat.sub_diag.
Qed.

Lemma argmin_from_first_min (v pre : list Q) (i bi : Z) (b : Q) :
  i = Z.of_nat (length pre) -> b = Np.get pre bi -> first_min pre bi ->
  first_min (pre ++ v) (Np.argmin_from i bi b v).
Proof.
  revert pre i bi b; induction v as [|x v IH]; intros pre i bi b Hi Hbv Hfm; simpl.
  - now rewrite app_nil_r.
  - destruct Hfm as (Hb & Hmin & Hfst).
    assert (Hlen : i + 1 = Z.of_nat (length (pre ++ [x])))
      by (rewrite length_app; simpl; lia).
    replace (pre ++ x :: v) with ((pre ++ [x]) ++ v)
      by (now rewrite <- app_assoc).
    destruct (Qle_bool b x) eqn:Hc.
    + apply Qle_bool_iff in Hc.
      apply IH; [exact Hlen | now rewrite get_app_l |].
      repeat split; try lia.
      * intros j Hj. rewrite (get_app_l pre [x] bi) by assumption.
        destruct (Z.eq_dec j (Z.of_nat (length pre))) as [->|Hne].
        -- rewrite get_app_here. now rewrite <- Hbv.
        -- rewrite get_app_l by lia. apply Hmin; lia.
      * intros j Hj. rewrite !get_app_l by lia. now apply Hfst.
    + assert (Hlt : (x < Np.get pre bi)%Q).
      { rewrite <- Hbv. apply Qnot_le_lt. intros Hle.
        apply Qle_bool_iff in Hle. congruence. }
      apply IH; [exact Hlen | subst i; now rewrite get_app_here |].
      subst i. repeat split; try lia.
      * intros j Hj. rewrite get_app_here.
        destruct (Z.eq_dec j (Z.of_nat (length pre))) as [->|Hne].
        -- rewrite get_app_here. apply Qle_refl.
        -- rewrite get_app_l by lia. apply Qlt_le_weak.
           eapply Qlt_le_trans; [exact Hlt | apply Hmin; lia].
      * intros j Hj. rewrite get_app_here, get_app_l by lia.
        eapply Qlt_le_trans; [exact Hlt | apply Hmin; lia].
Qed.

Lemma argmin_first_min (v : list Q) (j : Z) :
  Np.argmin v = Some j -> first_min v j.
Proof.
  destruct v as [|x v]; simpl; [discriminate|].
  intros H; inversion H; subst; clear H.
  apply (argmin_from_first_min v [x] 1 0 x); [reflexivity | reflexivity |].
  repeat split; simpl; try lia.
  intros i Hi. assert (i = 0) by lia. subst. apply Qle_refl.
Qed.

Lemma argmin_total (v : list Q) : v <> [] -> Np.argmin v <> None.
Proof. destruct v; [congruence | discriminate]. Qed.

(** ** Unconstrained reassignment *)

Example reassign_labels_ties :
  reassign_labels [] 3 [[3; 1; 1]; [0; 5; 0]; [2; 2; 2]]%Q None = Some [1; 0; 0].
Proof. reflexivity. Qed.

(** C1: on an [N]x[k] score matrix with [k > 0] and no constraints,
    [reassign_labels] returns [N] labels; the label of a point lies in
    [[0, k)], its score is minimal in the point's row, and every earlier
    column of the row has a strictly larger score (first index of the
    minimum). *)
Theorem reassign_labels_unconstrained
    (uninit : list Z) (k : Z) (scores : list (list Q)) :
  0 < k ->
  (forall row, In row scores -> Z.of_nat (length row) = k) ->
  exists lbl,
    reassign_labels uninit k scores None = Some lbl /\
    length lbl = length scores /\
    forall i, (i < length scores)%nat ->
      let l := nth i lbl 0 in
      let row := nth i scores [] in
      0 <= l < k /\
      (forall c, 0 <= c < k -> (Np.get row l <= Np.get row c)%Q) /\
      (forall c, 0 <= c < l -> (Np.get row l < Np.get row c)%Q).
Proof.
  intros Hk Hrows. simpl. unfold Np.argmin_axis1.
  destruct (k =? 0) eqn:Hk0; [lia|].
  destruct (mapM_total Np.argmin scores) as [lbl Hlbl].
  { intros row Hin. apply argmin_total. intros ->.
    specialize (Hrows [] Hin). simpl in Hrows. lia. }
  exists lbl. split; [exact Hlbl|]. split; [now apply mapM_length in Hlbl|].
  intros i Hi.
  pose proof (mapM_nth Np.argmin scores lbl [] 0 i Hlbl Hi) as Hnth.
  apply argmin_first_min in Hnth.
  assert (Hw : Z.of_nat (length (nth i scores [])) = k)
    by (apply Hrows, nth_In, Hi).
  destruct Hnth as (Hb & Hmin & Hfst). rewrite Hw in Hb, Hmin.
  cbv zeta. repeat split; try lia; assumption.
Qed.

Lemma reassign_labels_unconstrained_witness :
  exists lbl,
    reassign_labels [] 3 [[3; 1; 1]; [0; 5; 0]]%Q None = Some lbl /\
    length lbl = 2%nat /\
    forall i, (i < 2)%nat ->
      let l := nth i lbl 0 in
      let row := nth i [[3; 1; 1]; [0; 5; 0]]%Q [] in
      0 <= l < 3 /\
      (forall c, 0 <= c < 3 -> (Np.get row l <= Np.get row c)%Q) /\
      (forall c, 0 <= c < l -> (Np.get row l < Np.get row c)%Q).
Proof.
  apply (reassign_labels_unconstrained [] 3 [[3; 1; 1]; [0; 5; 0]]%Q).
  - lia.
  - intros row [<-|[<-|[]]]; reflexivity.
Defined.

(** ** float64 rounding *)

(** [0.1 + 0.2] is [0.30000000000000004]; [2^53 + 1] is a tie and goes to
    the even significand, [2^53 + 3] to [2^53 + 4]; half the smallest
    subnormal goes to zero. *)
Example round64_samples :
  Np.fadd (3602879701896397 # 36028797018963968)
          (3602879701896397 # 18014398509481984)
  = (5404319552844596 # 18014398509481984)%Q /\
  Np.round64 (inject_Z (2 ^ 53 + 1)) = inject_Z (2 ^ 53) /\
  Np.round64 (inject_Z (2 ^ 53 + 3)) = inject_Z (2 ^ 53 + 4) /\
  (Np.round64 (1 # Z.to_pos (2 ^ 1075)) == 0)%Q /\
  Np.is_float (1 # 2) /\ ~ Np.is_float (1 # 10).
Proof.
  repeat split; try (vm_compute; reflexivity).
  vm_compute. discriminate.
Qed.

(** [np.mean] of squared distances: NaN on no entry, [+inf] once the sum
    is out of the float64 range. *)
Example mean_samples :
  NpMore.mean [] = NaN /\
  NpMore.mean [inject_Z (2 ^ 1400); inject_Z (2 ^ 1400)] = PInf /\
  NpMore.mean [1; 3]%Q = Fin (4 # 2).
Proof. repeat split. Qed.

(** ** Constrained reassignment *)

Lemma assign_length {A} (mask : list bool) (v : A) (a : list A) :
  length (Np.assign mask v a) = length a.
Proof.
  revert a; induction mask as [|b mask IH]; intros [|x a]; simpl; auto.
Qed.

Lemma assign_nth {A} (mask : list bool) (v : A) (a : list A) (d : A) (i : nat) :
  length mask = length a -> (i < length a)%nat ->
  nth i (Np.assign mask v a) d = if nth i mask false then v else nth i a d.
Proof.
  revert a i; induction mask as [|b mask IH]; intros [|x a] i Hl Hi;
    simpl in *; try lia.
  destruct i as [|i]; [reflexivity|]. apply IH; lia.
Qed.

Lemma mean_axis0_length (k : Z) (m : list (list Q)) :
  0 <= k -> Z.of_nat (length (Np.mean_axis0 k m)) = k.
Proof.
  intros Hk. unfold Np.mean_axis0. rewrite length_map, range_length. lia.
Qed.

Lemma max_ge (a : list Z) (mx : Z) :
  Np.max a = Some mx -> forall z, In z a -> z <= mx.
Proof.
  destruct a as [|x a]; simpl; [discriminate|].
  intros H; inversion H; subst; clear H.
  assert (Hgen : forall l s, s <= fold_left Z.max l s /\
                 forall z, In z l -> z <= fold_left Z.max l s).
  { induction l as [|w l IH]; intros s; simpl.
    - split; [lia | intros z []].
    - destruct (IH (Z.max s w)) as [H1 H2]. split; [lia|].
      intros z [Hz|Hz]; [subst z; lia | now apply H2]. }
  intros z [Hz|Hz];
    [subst z; exact (proj1 (Hgen a x)) | exact (proj2 (Hgen a x) z Hz)].
Qed.

Section ConstrainedLoop.

Variables (k : Z) (scores : list (list Q)) (cs : list Z).
Hypothesis Hk : 0 < k.
Hypothesis Hcs : length cs = length scores.

Let body (acc : option (list Z)) (c_id : Z) : option (list Z) :=
  match acc with
  | None => None
  | Some labels => reassign_group k scores cs labels c_id
  end.

Lemma group_argmin_total (c : Z) :
  exists l, Np.argmin (Np.mean_axis0 k (group_rows scores cs c)) = Some l.
Proof.
  destruct (Np.argmin (Np.mean_axis0 k (group_rows scores cs c))) eqn:E;
    [now eexists|].
  exfalso. revert E. apply argmin_total. intros E.
  pose proof (mean_axis0_length k (group_rows scores cs c) ltac:(lia)) as Hl.
  rewrite E in Hl. simpl in Hl. lia.
Qed.

(** Invariant of the loop over the group ids: a visited group holds the
    argmin of its mean score vector, any other point its former label. *)
Lemma constrained_loop_inv (ids : list Z) (labels : list Z) :
  length labels = length scores ->
  exists lbl,
    fold_left body ids (Some labels) = Some lbl /\
    length lbl = length scores /\
    forall i, (i < length scores)%nat ->
      (In (nth i cs 0) ids ->
       Np.argmin (Np.mean_axis0 k (group_rows scores cs (nth i cs 0)))
       = Some (nth i lbl 0)) /\
      (~ In (nth i cs 0) ids -> nth i lbl 0 = nth i labels 0).
Proof.
  revert labels; induction ids as [|c ids IH]; intros labels Hl; simpl.
  - exists labels. repeat split; auto. intros [].
  - unfold reassign_group. rewrite length_map, Hcs, Nat.eqb_refl. simpl.
    destruct (group_argmin_total c) as [v Hv]. unfold group_rows in Hv.
    rewrite Hv.
    set (l1 := Np.assign (map (Z.eqb c) cs) v labels).
    assert (Hl1 : length l1 = length scores)
      by (unfold l1; now rewrite assign_length).
    destruct (IH l1 Hl1) as (lbl & Hfold & Hlen & Hinv).
    exists lbl. split; [exact Hfold|]. split; [exact Hlen|].
    intros i Hi. destruct (Hinv i Hi) as [Hin Hout].
    assert (Hl1i : nth i l1 0 = if c =? nth i cs 0 then v else nth i labels 0).
    { unfold l1. rewrite assign_nth by (rewrite ?length_map; lia).
      rewrite (nth_indep _ false (c =? 0)) by (rewrite length_map; lia).
      now rewrite map_nth. }
    split.
    + intros [Hc|Hc].
      * destruct (in_dec Z.eq_dec (nth i cs 0) ids) as [Hi'|Hi']; [now apply Hin|].
        rewrite (Hout Hi'), Hl1i, Hc, Z.eqb_refl. rewrite <- Hc. exact Hv.
      * now apply Hin.
    + intros Hn. rewrite Hout by tauto. rewrite Hl1i.
      destruct (Z.eqb_spec c (nth i cs 0)); [tauto | reflexivity].
Qed.

End ConstrainedLoop.

Example reassign_labels_groups :
  reassign_labels [9; 9; 9; 9] 2 [[1; 4]; [5; 1]; [3; 2]; [9; 0]]%Q
    (Some [1; 0; 1; 0])
  = Some [0; 1; 0; 1].
Proof. reflexivity. Qed.

(** The group mean is the float64 mean.  On the floats nearest to 0.1, 0.3
    and 0.5 both columns of the group [[0.1, 0.3]; [0.5, 0.3]] have the
    mean 0.3 once rounded, and the group gets label 0, although the exact
    mean of the first column is above that of the second. *)
Example reassign_labels_rounded_mean :
  let a := (3602879701896397 # 36028797018963968)%Q in
  let b := (5404319552844595 # 18014398509481984)%Q in
  let c := (1 # 2)%Q in
  reassign_labels [7; 7] 2 [[a; b]; [c; b]] (Some [0; 0]) = Some [0; 0] /\
  Np.mean_axis0 2 [[a; b]; [c; b]] = [b; b] /\
  (b < (a + c) / 2)%Q.
Proof. repeat split; vm_compute; reflexivity. Qed.




(** ** Float comparisons *)

Lemma Qlt_bool_true (x z : Q) : negb (Qle_bool z x) = true <-> (x < z)%Q.
Proof.
  rewrite negb_true_iff. split.
  - intros H. apply Qnot_le_lt. intros Hle. apply Qle_bool_iff in Hle. congruence.
  - intros H. destruct (Qle_bool z x) eqn:E; [|reflexivity].
    apply Qle_bool_iff in E. exfalso. now apply (Qlt_not_le x z).
Qed.

Lemma flt_trans (a b c : fval) :
  flt a b = true -> flt b c = true -> flt a c = true.
Proof.
  destruct a, b, c; simpl; try discriminate; try reflexivity.
  rewrite !Qlt_bool_true. apply Qlt_trans.
Qed.

(** A value not below [b] is NaN or above everything below [b]. *)
Lemma flt_below (a b c : fval) :
  flt a b = true -> flt c b = false -> is_nan c = true \/ flt a c = true.
Proof.
  destruct a, b, c; simpl; try discriminate; auto.
  rewrite negb_false_iff, !Qlt_bool_true, Qle_bool_iff.
  intros H1 H2. right. eapply Qlt_le_trans; eassumption.
Qed.

Lemma flt_not_above (a b c : fval) :
  flt a b = true -> flt c b = false -> flt c a = false.
Proof.
  destruct a, b, c; simpl; try discriminate; auto.
  rewrite !negb_false_iff, Qlt_bool_true, !Qle_bool_iff.
  intros H1 H2. apply Qlt_le_weak. eapply Qlt_le_trans; eassumption.
Qed.

Lemma fle_of_not_flt (a b : fval) :
  is_nan a = false -> is_nan b = false -> flt b a = false -> fle a b = true.
Proof.
  destruct a, b; simpl; try discriminate; auto.
  now rewrite negb_false_iff.
Qed.

Lemma flt_not_nan (a b : fval) : flt a b = true -> is_nan a = false.
Proof. destruct a, b; simpl; try discriminate; auto. Qed.

(** ** The multi-start loop *)

Section BestLoop.

Context {M : Type}.
Variable clr_func : nat -> option (result M).

Lemma best_loop_returns (tries : list nat) (st : best_state) :
  (forall i, In i tries -> clr_func i <> None) ->
  best_loop clr_func tries st <> None.
Proof.
  revert st; induction tries as [|i tries IH]; intros st H; simpl; [discriminate|].
  unfold best_step. destruct (clr_func i) eqn:E; [|exfalso; apply (H i); simpl; auto].
  destruct (flt (r_obj r) (best_obj st)); apply IH; intros; apply H; simpl; auto.
Qed.

(** Either no run was strictly below the initial best, or the state holds
    the first run that is below the initial best, below every non-NaN run
    seen before it, and not above any run seen after it. *)
Lemma best_loop_inv (tries : list nat) (st st' : best_state) :
  best_loop clr_func tries st = Some st' ->
  (st' = st /\
   forall i r, In i tries -> clr_func i = Some r ->
     flt (r_obj r) (best_obj st) = false)
  \/
  (exists pre j post rj,
     tries = pre ++ j :: post /\ clr_func j = Some rj /\ st' = kept rj /\
     flt (r_obj rj) (best_obj st) = true /\
     (forall i r, In i pre -> clr_func i = Some r ->
        is_nan (r_obj r) = true \/ flt (r_obj rj) (r_obj r) = true) /\
     (forall i r, In i post -> clr_func i = Some r ->
        flt (r_obj r) (r_obj rj) = false)).
Proof.
  revert st; induction tries as [|i tries IH]; intros st H; simpl in H.
  - inversion H; subst. left. split; [reflexivity | intros i r []].
  - unfold best_step in H. destruct (clr_func i) as [ri|] eqn:Ei; [|discriminate].
    destruct (flt (r_obj ri) (best_obj st)) eqn:Hlt.
    + right. destruct (IH _ H) as [[-> Hno] | (pre & j & post & rj & -> & Ej & -> & Hj & Hpre & Hpost)].
      * exists [], i, tries, ri.
        split; [reflexivity|]. split; [exact Ei|]. split; [reflexivity|].
        split; [exact Hlt|]. split; [intros x r []|].
        intros x r Hx Ex. exact (Hno x r Hx Ex).
      * exists (i :: pre), j, post, rj. repeat split; auto.
        -- eapply flt_trans; [exact Hj | exact Hlt].
        -- intros x r [<-|Hx] Ex; [|now apply (Hpre x)].
           right. rewrite Ei in Ex. inversion Ex; subst. exact Hj.
    + destruct (IH _ H) as [[-> Hno] | (pre & j & post & rj & -> & Ej & -> & Hj & Hpre & Hpost)].
      * left. split; [reflexivity|]. intros x r [<-|Hx] Ex; [|now apply (Hno x)].
        rewrite Ei in Ex. inversion Ex; subst. exact Hlt.
      * right. exists (i :: pre), j, post, rj. repeat split; auto.
        intros x r [<-|Hx] Ex; [|now apply (Hpre x)].
        rewrite Ei in Ex. inversion Ex; subst.
        eapply flt_below; eassumption.
Qed.

Lemma best_loop_ran (tries : list nat) (st st' : best_state) :
  best_loop clr_func tries st = Some st' ->
  forall i, In i tries -> clr_func i <> None.
Proof.
  revert st; induction tries as [|i tries IH]; intros st H x Hx; simpl in *; [tauto|].
  unfold best_step in H. destruct (clr_func i) as [ri|] eqn:Ei; [|discriminate].
  destruct Hx as [<-|Hx]; [congruence|].
  destruct (flt (r_obj ri) (best_obj st)); eapply IH; eassumption.
Qed.

End BestLoop.

Lemma seq_split (pre post : list nat) (j s n : nat) :
  seq s n = pre ++ j :: post ->
  j = (s + length pre)%nat /\
  (forall x, In x pre -> (s <= x < j)%nat) /\
  (forall x, In x post -> (j < x < s + n)%nat).
Proof.
  revert s n; induction pre as [|p pre IH]; intros s n H; simpl in *.
  - destruct n as [|n]; simpl in H; [discriminate|].
    inversion H; subst. repeat split; try lia; try tauto.
    + apply in_seq in H0. lia.
    + apply in_seq in H0. lia.
  - destruct n as [|n]; simpl in H; [discriminate|].
    inversion H; subst. destruct (IH _ _ H2) as (Hj & Hpre & Hpost).
    repeat split; try lia.
    + destruct H0 as [<-|H0]; [lia | apply Hpre in H0; lia].
    + destruct H0 as [<-|H0]; [lia | apply Hpre in H0; lia].
    + apply Hpost in H0; lia.
    + apply Hpost in H0; lia.
Qed.

(** ** Best-of selection *)

Section BestOfProps.

Context {M : Type}.
Variable clr_func : nat -> option (result M).

Lemma kept_result (st : best_state) (r : result M) :
  st = kept r ->
  match best_vars st with
  | None => Err UnboundLocalError
  | Some (l, m, w) =>
      Ok {| r_labels := l; r_models := m; r_weights := w; r_obj := best_obj st |}
  end = Ok r.
Proof. intros ->. destruct r; reflexivity. Qed.

(** If every run returns and one of them has an objective below [+inf],
    the loop returns the first run that no other run beats. *)
Lemma best_of_minimum (n : nat) :
  (forall i, (i < n)%nat -> clr_func i <> None) ->
  (exists i r, (i < n)%nat /\ clr_func i = Some r /\ flt (r_obj r) PInf = true) ->
  exists j rj,
    (j < n)%nat /\ clr_func j = Some rj /\ best_of clr_func n = Ok rj /\
    (forall i r, (i < n)%nat -> clr_func i = Some r ->
       is_nan (r_obj r) = false -> fle (r_obj rj) (r_obj r) = true) /\
    (forall i r, (i < j)%nat -> clr_func i = Some r ->
       is_nan (r_obj r) = true \/ flt (r_obj rj) (r_obj r) = true).
Proof.
  intros Hrun (i0 & r0 & Hi0 & E0 & Hlt0). unfold best_of.
  destruct (best_loop clr_func (seq 0 n) {| best_obj := PInf; best_vars := None |})
    as [st|] eqn:Hloop.
  2:{ exfalso. revert Hloop. apply best_loop_returns.
      intros i Hi. apply Hrun. apply in_seq in Hi. lia. }
  destruct (best_loop_inv _ _ _ _ Hloop)
    as [[-> Hno] | (pre & j & post & rj & Hseq & Ej & Hst & Hj & Hpre & Hpost)].
  - exfalso. specialize (Hno i0 r0). simpl in Hno.
    rewrite Hno in Hlt0; [discriminate | apply in_seq; lia | exact E0].
  - destruct (seq_split _ _ _ _ _ Hseq) as (Hjl & Hpre_lt & Hpost_gt).
    assert (Hjn : (j < n)%nat).
    { assert (In j (seq 0 n)) by (rewrite Hseq; apply in_elt).
      apply in_seq in H. lia. }
    exists j, rj. split; [exact Hjn|]. split; [exact Ej|].
    split; [now apply kept_result|]. split.
    + intros i r Hi Ei Hnan.
      assert (Hin : In i (pre ++ j :: post)) by (rewrite <- Hseq; apply in_seq; lia).
      apply fle_of_not_flt; [now apply (flt_not_nan _ _ Hj) | exact Hnan |].
      apply in_app_or in Hin. destruct Hin as [Hin | [<- | Hin]].
      * destruct (Hpre i r Hin Ei) as [Hn | Hlt]; [congruence|].
        destruct (r_obj r), (r_obj rj); simpl in *; try discriminate; auto.
        rewrite negb_false_iff. rewrite Qlt_bool_true in Hlt.
        apply Qle_bool_iff. now apply Qlt_le_weak.
      * rewrite Ej in Ei. inversion Ei; subst.
        destruct (r_obj r); simpl in *; try discriminate; auto.
        rewrite negb_false_iff. apply Qle_bool_iff, Qle_refl.
      * now apply (Hpost i r).
    + intros i r Hi Ei. apply (Hpre i r); [|exact Ei].
      assert (Hin : In i (pre ++ j :: post)) by (rewrite <- Hseq; apply in_seq; lia).
      apply in_app_or in Hin. destruct Hin as [Hin | [<- | Hin]]; [exact Hin | lia |].
      apply Hpost_gt in Hin. lia.
Qed.

(** If no run has an objective below [+inf], the result variables are
    never assigned. *)
Lemma best_of_unbound (n : nat) :
  (forall i, (i < n)%nat ->
     exists r, clr_func i = Some r /\ flt (r_obj r) PInf = false) ->
  best_of clr_func n = Err UnboundLocalError.
Proof.
  intros H. unfold best_of.
  destruct (best_loop clr_func (seq 0 n) {| best_obj := PInf; best_vars := None |})
    as [st|] eqn:Hloop.
  2:{ exfalso. revert Hloop. apply best_loop_returns.
      intros i Hi. apply in_seq in Hi. destruct (H i) as (r & -> & _); [lia | discriminate]. }
  destruct (best_loop_inv _ _ _ _ Hloop)
    as [[-> Hno] | (pre & j & post & rj & Hseq & Ej & Hst & Hj & Hpre & Hpost)].
  - reflexivity.
  - exfalso. assert (Hin : In j (seq 0 n)) by (rewrite Hseq; apply in_elt).
    apply in_seq in Hin. destruct (H j) as (r & Er & Hr); [lia|].
    rewrite Ej in Er. inversion Er; subst. simpl in Hj. congruence.
Qed.

(** Whatever the loop returns is a run whose objective is below [+inf]. *)
Lemma best_of_selected (n : nat) (res : result M) :
  best_of clr_func n = Ok res ->
  exists j, (j < n)%nat /\ clr_func j = Some res /\ flt (r_obj res) PInf = true.
Proof.
  unfold best_of.
  destruct (best_loop clr_func (seq 0 n) {| best_obj := PInf; best_vars := None |})
    as [st|] eqn:Hloop; [|discriminate].
  destruct (best_loop_inv _ _ _ _ Hloop)
    as [[-> Hno] | (pre & j & post & rj & Hseq & Ej & Hst & Hj & Hpre & Hpost)].
  - discriminate.
  - rewrite (kept_result st rj Hst). intros H; inversion H; subst.
    exists j. split; [|split; [exact Ej | exact Hj]].
    assert (Hin : In j (seq 0 n)) by (rewrite Hseq; apply in_elt).
    apply in_seq in Hin. lia.
Qed.

End BestOfProps.

(** ** [best_clr] *)

Lemma best_clr_unfold (F : Numeric) (R : Regressor) X y k fuzzy n kw world :
  best_clr F R X y k fuzzy n kw world
  = best_of (nth_try F R X y k fuzzy kw world) n.
Proof. unfold best_clr, nth_try. destruct fuzzy; reflexivity. Qed.

(** The selection loop skips a run whose objective is NaN: here it keeps
    the finite objective 1, which is not [<=] NaN. *)
Example best_of_not_below_nan_run :
  exists res,
    best_of run_then_nan 2 = Ok res /\
    exists i r, (i < 2)%nat /\ run_then_nan i = Some r /\
      fle (r_obj res) (r_obj r) = false.
Proof.
  exists (bare_result (Fin 1)). split; [reflexivity|].
  exists 1%nat, (bare_result NaN). repeat split. lia.
Qed.

(** When every try returns and at least one objective is below [+inf],
    [best_clr] returns the result of one of the tries; its objective is
    [<=] the objective of every try whose objective is not NaN, and every
    earlier try has a NaN or a strictly larger objective (the first run
    attaining the minimum is the one kept, with its labels, models and
    weights). *)
Theorem best_clr_minimum (F : Numeric) (R : Regressor) (X : list (list Q))
    (y : list Q) (k : Z) (fuzzy : bool) (n : nat) (kw : kwargs (model R))
    (world : nat -> draw) :
  (forall i, (i < n)%nat -> nth_try F R X y k fuzzy kw world i <> None) ->
  (exists i r, (i < n)%nat /\ nth_try F R X y k fuzzy kw world i = Some r /\
     flt (r_obj r) PInf = true) ->
  exists j rj,
    (j < n)%nat /\ nth_try F R X y k fuzzy kw world j = Some rj /\
    best_clr F R X y k fuzzy n kw world = Ok rj /\
    (forall i r, (i < n)%nat -> nth_try F R X y k fuzzy kw world i = Some r ->
       is_nan (r_obj r) = false -> fle (r_obj rj) (r_obj r) = true) /\
    (forall i r, (i < j)%nat -> nth_try F R X y k fuzzy kw world i = Some r ->
       is_nan (r_obj r) = true \/ flt (r_obj rj) (r_obj r) = true).
Proof.
  intros Hrun Hsome. rewrite best_clr_unfold.
  now apply best_of_minimum.
Qed.

Example best_of_keeps_first_minimum :
  best_of three_runs 3 = Ok (bare_result (Fin 1)).
Proof. reflexivity. Qed.

Lemma best_clr_minimum_witness :
  exists j rj,
    (j < 2)%nat /\
    nth_try toy_numeric const_regressor [[0]; [1]]%Q [1; 3]%Q 1 false
      (plain_kwargs 5) (fun _ => two_point_draw) j = Some rj /\
    best_clr toy_numeric const_regressor [[0]; [1]]%Q [1; 3]%Q 1 false 2
      (plain_kwargs 5) (fun _ => two_point_draw) = Ok rj /\
    (forall i r, (i < 2)%nat ->
       nth_try toy_numeric const_regressor [[0]; [1]]%Q [1; 3]%Q 1 false
         (plain_kwargs 5) (fun _ => two_point_draw) i = Some r ->
       is_nan (r_obj r) = false -> fle (r_obj rj) (r_obj r) = true) /\
    (forall i r, (i < j)%nat ->
       nth_try toy_numeric const_regressor [[0]; [1]]%Q [1; 3]%Q 1 false
         (plain_kwargs 5) (fun _ => two_point_draw) i = Some r ->
       is_nan (r_obj r) = true \/ flt (r_obj rj) (r_obj r) = true).
Proof.
  apply (best_clr_minimum toy_numeric const_regressor [[0]; [1]]%Q [1; 3]%Q 1
           false 2 (plain_kwargs 5) (fun _ => two_point_draw)).
  - intros i _. vm_compute. discriminate.
  - exists 0%nat. eexists. split; [lia|]. split; vm_compute; reflexivity.
Defined.

(** On an empty data set [clr] returns a result whose objective is the
    mean of an empty array, NaN, and [best_clr] raises instead of returning
    that result. *)
Example best_clr_single_try_nan :
  exists res,
    nth_try toy_numeric const_regressor [] [] 1 false (plain_kwargs 5)
      (fun _ => empty_draw) 0 = Some res /\
    r_obj res = NaN /\
    best_clr toy_numeric const_regressor [] [] 1 false 1 (plain_kwargs 5)
      (fun _ => empty_draw) = Err UnboundLocalError.
Proof. eexists. repeat split; vm_compute; reflexivity. Qed.

(** [best_clr] with [num_tries = 1], unfolded: one call of the selected
    optimizer, whose result is returned only when its objective is below
    [+inf]. *)
Lemma best_clr_single_try (F : Numeric) (R : Regressor) (X : list (list Q))
    (y : list Q) (k : Z) (fuzzy : bool) (kw : kwargs (model R))
    (world : nat -> draw) :
  best_clr F R X y k fuzzy 1 kw world =
  match (if fuzzy then call_fuzzy_clr F R X y k kw else call_clr R X y k kw)
          (world 0%nat) with
  | None => Err Raised
  | Some res =>
      if flt (r_obj res) PInf then Ok res else Err UnboundLocalError
  end.
Proof.
  unfold best_clr, best_of. simpl. unfold best_step.
  destruct ((if fuzzy then call_fuzzy_clr F R X y k kw else call_clr R X y k kw)
              (world 0%nat)) as [res|]; [|reflexivity].
  simpl. destruct (flt (r_obj res) PInf); [|reflexivity].
  simpl. destruct res; reflexivity.
Qed.

(** C8: [best_clr] with [num_tries = 1] does not return the result of its
    single optimizer call when that call's objective is not below [+inf].
    On two points whose targets are [2^700] and [-2^700] the call of [clr]
    returns labels [[0; 0]], the fitted model, the weight 1 and the
    objective [+inf] (the squared residuals overflow); [best_clr] raises
    [UnboundLocalError]: [obj < best_obj] is false against the initial
    [best_obj = +inf], so the variables it returns were never assigned. *)
Theorem best_clr_single_try_overflow :
  exists res,
    nth_try toy_numeric const_regressor far_X far_y 1 false (plain_kwargs 5)
      (fun _ => far_draw) 0 = Some res /\
    r_labels res = [0; 0] /\
    r_obj res = PInf /\
    best_clr toy_numeric const_regressor far_X far_y 1 false 1 (plain_kwargs 5)
      (fun _ => far_draw) = Err UnboundLocalError.
Proof. eexists. repeat split; vm_compute; reflexivity. Qed.

(** C7: with two tries on the same data both calls of [clr] return, each
    with the objective [+inf]; the first run attains the minimum, and its
    objective is [<=] the objective of both runs, yet [best_clr] returns
    no run at all: it raises [UnboundLocalError], for the reason given for
    one try. *)
Theorem best_clr_two_tries_overflow :
  exists r0 r1,
    nth_try toy_numeric const_regressor far_X far_y 1 false (plain_kwargs 5)
      (fun _ => far_draw) 0 = Some r0 /\
    nth_try toy_numeric const_regressor far_X far_y 1 false (plain_kwargs 5)
      (fun _ => far_draw) 1 = Some r1 /\
    r_obj r0 = PInf /\
    fle (r_obj r0) (r_obj r0) = true /\
    fle (r_obj r0) (r_obj r1) = true /\
    best_clr toy_numeric const_regressor far_X far_y 1 false 2 (plain_kwargs 5)
      (fun _ => far_draw) = Err UnboundLocalError.
Proof. eexists. eexists. repeat split; vm_compute; reflexivity. Qed.

Example best_clr_single_try_returns :
  best_clr toy_numeric const_regressor [[0]; [1]]%Q [1; 3]%Q 1 false 1
    (plain_kwargs 5) (fun _ => two_point_draw)
  = Ok {| r_labels := [0; 0]; r_models := [4 # 2]%Q; r_weights := [2 # 2]%Q;
          r_obj := Fin (32 # 32) |}.
Proof. reflexivity. Qed.

Example best_clr_zero_tries :
  best_clr toy_numeric const_regressor [[0]; [1]]%Q [1; 3]%Q 1 false 0
    (plain_kwargs 5) (fun _ => two_point_draw)
  = Err UnboundLocalError.
Proof. reflexivity. Qed.

Example best_of_all_nan_or_inf :
  best_of (fun i => Some (bare_result (if (i =? 0)%nat then NaN else PInf))) 3
  = Err UnboundLocalError.
Proof. reflexivity. Qed.

(** C9: if every try returns but none has an objective strictly below
    [+inf] (no try at all, or only NaN and [+inf] objectives), [best_clr]
    raises [UnboundLocalError]; and whenever [best_clr] does return, the
    objective it returns is below [+inf], hence never NaN. *)
Theorem best_clr_unbound (F : Numeric) (R : Regressor) (X : list (list Q))
    (y : list Q) (k : Z) (fuzzy : bool) (n : nat) (kw : kwargs (model R))
    (world : nat -> draw) :
  ((forall i, (i < n)%nat ->
      exists r, nth_try F R X y k fuzzy kw world i = Some r /\
                flt (r_obj r) PInf = false) ->
   best_clr F R X y k fuzzy n kw world = Err UnboundLocalError) /\
  (forall res, best_clr F R X y k fuzzy n kw world = Ok res ->
     is_nan (r_obj res) = false /\ flt (r_obj res) PInf = true /\
     exists j, (j < n)%nat /\ nth_try F R X y k fuzzy kw world j = Some res).
Proof.
  rewrite best_clr_unfold. split.
  - apply best_of_unbound.
  - intros res H. destruct (best_of_selected _ _ _ H) as (j & Hj & Ej & Hlt).
    split; [now apply (flt_not_nan _ _ Hlt)|]. split; [exact Hlt|].
    now exists j.
Qed.

Lemma best_clr_unbound_witness :
  best_clr toy_numeric const_regressor [] [] 1 false 2 (plain_kwargs 5)
    (fun _ => empty_draw) = Err UnboundLocalError.
Proof.
  apply (proj1 (best_clr_unbound toy_numeric const_regressor [] [] 1 false 2
                  (plain_kwargs 5) (fun _ => empty_draw))).
  intros i _. eexists. split; vm_compute; reflexivity.
Defined.

(** ** The hard-CLR loop *)

Section ClrLoop.

Context (R : Regressor).
Variables (X : list (list Q)) (y : list Q) (k : Z) (kmeans_X : Q).
Variable constr : option (list Z).
Variable uninit : nat -> list Z.

#[local] Abbreviation iter := (clr_iter R X y k kmeans_X constr uninit).
#[local] Abbreviation loop := (clr_loop R X y k kmeans_X constr uninit).
#[local] Abbreviation iterate := (clr_iterate R X y k kmeans_X constr uninit).
#[local] Abbreviation close_at := (clr_close_at R X y k kmeans_X constr uninit).

Lemma clr_iterate_shift (n : nat) (st : clr_state R) :
  iterate (S n) st =
  match iter st with
  | None => None
  | Some st' => iterate n st'
  end.
Proof.
  induction n as [|n IH].
  - simpl. now destruct (iter st).
  - change (iterate (S (S n)) st)
      with (match iterate (S n) st with None => None | Some s => iter s end).
    rewrite IH. destruct (iter st); reflexivity.
Qed.

Lemma clr_close_at_shift (st st' : clr_state R) (j : nat) :
  iter st = Some st' -> close_at st (S j) = close_at st' j.
Proof.
  intros H. unfold clr_close_at.
  rewrite (clr_iterate_shift (S j)), (clr_iterate_shift j), H. reflexivity.
Qed.

(** The loop runs [n] passes, where [n] is [max_iter] or the first pass
    whose convergence test succeeds. *)
Lemma clr_loop_trace (max_iter : nat) (st fin : clr_state R) :
  loop max_iter st = Some fin ->
  exists n, (n <= max_iter)%nat /\
    iterate n st = Some fin /\
    it R fin = (it R st + n)%nat /\
    (forall j, (S j < n)%nat -> close_at st j = false) /\
    (n < max_iter -> exists j, n = S j /\ close_at st j = true)%nat.
Proof.
  revert st; induction max_iter as [|m IH]; intros st H; simpl in H.
  - inversion H; subst. exists 0%nat. repeat split; lia.
  - destruct (iter st) as [st'|] eqn:Hit; [|discriminate].
    assert (Hcnt : it R st' = S (it R st)).
    { unfold clr_iter in Hit.
      destruct (rebuild_models _ _ _ _ _ _); [|discriminate].
      destruct (Np.mapM _ _); [|discriminate].
      destruct (reassign_labels _ _ _ _); [|discriminate].
      inversion Hit; reflexivity. }
    destruct (labels_close (labels R st') (labels R st)) eqn:Hc.
    + inversion H; subst. exists 1%nat. repeat split; try lia.
      * simpl. exact Hit.
      * intros _. exists 0%nat. split; [reflexivity|].
        unfold clr_close_at. simpl. now rewrite Hit.
    + destruct (IH _ H) as (n & Hn & Hrun & Hcount & Hbefore & Hstop).
      exists (S n). repeat split; try lia.
      * rewrite clr_iterate_shift, Hit. exact Hrun.
      * intros [|j] Hj.
        -- unfold clr_close_at. simpl. now rewrite Hit.
        -- rewrite (clr_close_at_shift st st' j Hit). apply Hbefore. lia.
      * intros Hlt. destruct Hstop as (j & -> & Hj); [lia|].
        exists (S j). split; [reflexivity|].
        now rewrite (clr_close_at_shift st st' j Hit).
Qed.

End ClrLoop.

(** On integers whose reference value is below 100000 in absolute value,
    [np.isclose] with the default tolerances is equality. *)
Lemma isclose_int (a b : Z) :
  -99999 <= b <= 99999 ->
  NpMore.isclose NpMore.default_rtol NpMore.default_atol (inject_Z a) (inject_Z b)
  = true <-> a = b.
Proof.
  intros Hb. unfold NpMore.isclose. rewrite Qle_bool_iff.
  unfold Qle, Qabs, Qminus, Qplus, Qmult, Qopp, inject_Z,
    NpMore.default_rtol, NpMore.default_atol.
  cbn [Qnum Qden]. rewrite !Z.mul_1_r, !Z.mul_1_l. cbn [Pos.mul].
  change (Z.pos (1 * 1)) with 1. rewrite ?Z.mul_1_r.
  split; [intros H | intros ->]; lia.
Qed.

Lemma labels_close_eq (a b : list Z) :
  length a = length b ->
  (forall x, In x b -> -99999 <= x <= 99999) ->
  labels_close a b = true <-> a = b.
Proof.
  unfold labels_close.
  revert b; induction a as [|x a IH]; intros [|z b] Hl Hb; simpl in *;
    try discriminate; try (split; [reflexivity | reflexivity]).
  rewrite andb_true_iff, isclose_int by (apply Hb; auto).
  rewrite IH by (auto; lia). split.
  - intros [-> ->]; reflexivity.
  - intros H; inversion H; auto.
Qed.

(** ** The hard-CLR loop returns when nothing is constrained *)

Section ClrTotal.

Context (R : Regressor).
Variables (X : list (list Q)) (y : list Q) (k : Z) (kmeans_X : Q).
Variable uninit : nat -> list Z.
Hypothesis Hk : 0 < k.
Hypothesis Hy : length y = length X.
Hypothesis Hpredict : forall m X', length (predict R m X') = length X'.

Lemma eq_mask_length (lbl : list Z) (c : Z) :
  length (NpMore.eq_mask lbl c) = length lbl.
Proof. apply length_map. Qed.

Lemma masked_same {A} (mask : list bool) (a : list A) :
  length mask = length a -> NpMore.masked mask a = Some (Np.select mask a).
Proof. intros H. unfold NpMore.masked. now rewrite H, Nat.eqb_refl. Qed.

Lemma broadcast_same (n : nat) (v : list Q) :
  length v = n -> NpMore.broadcast n v = Some v.
Proof. intros H. unfold NpMore.broadcast. now rewrite H, Nat.eqb_refl. Qed.

Lemma rebuild_model_total (lbl : list Z) (c : Z) (m : model R) :
  length lbl = length X ->
  rebuild_model R X y lbl c m
  = Some (if NpMore.count (NpMore.eq_mask lbl c) =? 0 then m
          else fit R m (Np.select (NpMore.eq_mask lbl c) X)
                       (Np.select (NpMore.eq_mask lbl c) y)).
Proof.
  intros Hl. unfold rebuild_model.
  destruct (NpMore.count _ =? 0); [reflexivity|].
  rewrite !masked_same by (rewrite eq_mask_length; congruence).
  reflexivity.
Qed.

Lemma rebuild_models_length (lbl : list Z) (ms ms' : list (model R)) :
  rebuild_models R X y k lbl ms = Some ms' ->
  length ms = Z.to_nat k -> length ms' = Z.to_nat k.
Proof.
  clear Hk Hy Hpredict.
  intros H Hm. unfold rebuild_models in H. apply mapM_length in H.
  rewrite H, length_combine, range_length, Hm. apply Nat.min_id.
Qed.

Lemma rebuild_models_total (lbl : list Z) (ms : list (model R)) :
  length lbl = length X ->
  exists ms', rebuild_models R X y k lbl ms = Some ms'.
Proof.
  intros Hl. apply mapM_total. intros [c m] _.
  rewrite rebuild_model_total by exact Hl. discriminate.
Qed.

Lemma score_column_total (lbl : list Z) (c : Z) (m : model R) :
  length lbl = length X ->
  score_column R X y kmeans_X lbl c m <> None.
Proof.
  intros Hl. unfold score_column.
  rewrite !broadcast_same by auto.
  destruct (NpMore.count _ =? 0); [discriminate|].
  destruct (negb (Qle_bool kmeans_X 0)); [|discriminate].
  rewrite masked_same by (rewrite eq_mask_length; exact Hl). discriminate.
Qed.

Lemma clr_iter_total (st : clr_state R) :
  length (models R st) = Z.to_nat k ->
  length (labels R st) = length X ->
  exists st', clr_iter R X y k kmeans_X None uninit st = Some st' /\
              length (models R st') = Z.to_nat k /\
              length (labels R st') = length X.
Proof.
  intros Hm Hl. unfold clr_iter.
  destruct (rebuild_models_total (labels R st) (models R st) Hl) as [ms Hms].
  rewrite Hms.
  assert (Hmsl : length ms = Z.to_nat k)
    by (eapply rebuild_models_length; eauto).
  destruct (mapM_total
              (fun '(cl_idx, m) => score_column R X y kmeans_X (labels R st) cl_idx m)
              (combine (Np.range k) ms)) as [cols Hcols].
  { intros [c m] _. now apply score_column_total. }
  rewrite Hcols.
  assert (Hlen : length cols = Z.to_nat k).
  { apply mapM_length in Hcols. rewrite Hcols, length_combine, range_length. lia. }
  simpl. unfold Np.argmin_axis1. destruct (k =? 0) eqn:Hk0; [lia|].
  destruct (mapM_total Np.argmin (NpMore.rows_of_cols (length X) cols)) as [lbl Hlbl].
  { intros row Hrow. apply argmin_total. unfold NpMore.rows_of_cols in Hrow.
    apply in_map_iff in Hrow. destruct Hrow as (i & <- & _).
    intros E. apply (f_equal (@length Q)) in E.
    rewrite length_map, Hlen in E. simpl in E. lia. }
  rewrite Hlbl. eexists. split; [reflexivity|]. split; [exact Hmsl|].
  simpl. rewrite (mapM_length _ _ _ Hlbl). unfold NpMore.rows_of_cols.
  rewrite length_map, range_length. lia.
Qed.

Lemma clr_loop_total (max_iter : nat) (st : clr_state R) :
  length (models R st) = Z.to_nat k ->
  length (labels R st) = length X ->
  clr_loop R X y k kmeans_X None uninit max_iter st <> None.
Proof.
  revert st; induction max_iter as [|m IH]; intros st Hm Hl; simpl; [discriminate|].
  destruct (clr_iter_total st Hm Hl) as (st' & -> & Hm' & Hl').
  destruct (labels_close _ _); [discriminate | now apply IH].
Qed.

End ClrTotal.

Example clr_two_passes :
  option_map (fun st => (labels _ st, it _ st))
    (clr_loop const_regressor [[0]; [0]; [0]]%Q [0; 10; 9]%Q 2 0 None
       (fun _ => []) 5
       (clr_init const_regressor 2 1000%Q [0; 0; 1] []))
  = Some ([0; 1; 1], 2%nat).
Proof. reflexivity. Qed.

(** C2: the loop of [clr] stops early on two labellings that are not
    identical.  It compares them with [np.allclose], whose default
    relative tolerance makes labels above 100000 that differ by one count
    as equal: with 200002 clusters the run below stops after the first of
    its 5 passes although the new labelling differs from the previous
    one. *)
Theorem clr_stops_on_different_labels :
  exists fin,
    clr_loop const_regressor wide_X wide_y wide_k 0 None (fun _ => []) 5 wide_init
    = Some fin /\
    it _ fin = 1%nat /\
    labels _ fin = [200000; 200001; 200001] /\
    labels _ wide_init = [200000; 200000; 200001] /\
    labels _ fin <> labels _ wide_init.
Proof.
  assert (H : option_map (fun st => (labels _ st, it _ st))
                (clr_loop const_regressor wide_X wide_y wide_k 0 None
                   (fun _ => []) 5 wide_init)
              = Some ([200000; 200001; 200001], 1%nat))
    by (vm_compute; reflexivity).
  destruct (clr_loop const_regressor wide_X wide_y wide_k 0 None (fun _ => []) 5
              wide_init) as [fin|]; [|discriminate].
  simpl in H. inversion H as [[Hl Hi]]. exists fin.
  split; [reflexivity|]. split; [reflexivity|]. split; [reflexivity|].
  split; [reflexivity|]. rewrite Hl. discriminate.
Qed.

(** From the initial state of [clr], a loop that returns ran
    [n <= max_iter] passes, the convergence test [np.allclose(labels,
    labels_prev)] failed at the end of every pass before the [n]-th, and
    [n < max_iter] only if the test succeeded at the end of the [n]-th
    pass; with no constraints, [k > 0], one target and one initial label
    per point and a regressor that predicts one value per row the loop
    always returns; and the test is elementwise identity of the two
    labellings whenever the previous labels are below 100000 in absolute
    value (so for every [k <= 100000]). *)
Theorem clr_loop_stops (R : Regressor) (X : list (list Q)) (y : list Q) (k : Z)
    (kmeans_X : Q) (constr : option (list Z)) (uninit : nat -> list Z)
    (lr : model R) (labels0 : list Z) (scores0 : list (list Q))
    (max_iter : nat) :
  let st0 := clr_init R k lr labels0 scores0 in
  (forall fin,
     clr_loop R X y k kmeans_X constr uninit max_iter st0 = Some fin ->
     exists n, (n <= max_iter)%nat /\
       clr_iterate R X y k kmeans_X constr uninit n st0 = Some fin /\
       it R fin = n /\
       (forall j, (S j < n)%nat ->
          clr_close_at R X y k kmeans_X constr uninit st0 j = false) /\
       (n < max_iter ->
        exists j, n = S j /\
          clr_close_at R X y k kmeans_X constr uninit st0 j = true)%nat) /\
  (0 < k -> constr = None -> length y = length X ->
   length labels0 = length X ->
   (forall m X', length (predict R m X') = length X') ->
   clr_loop R X y k kmeans_X constr uninit max_iter st0 <> None) /\
  (forall a b, length a = length b ->
     (forall x, In x b -> -99999 <= x <= 99999) ->
     (labels_close a b = true <-> a = b)).
Proof.
  intros st0. split; [|split].
  - intros fin H.
    destruct (clr_loop_trace R X y k kmeans_X constr uninit max_iter st0 fin H)
      as (n & Hn & Hrun & Hcount & Hbefore & Hstop).
    exists n. repeat split; auto.
  - intros Hk -> Hy Hl Hp. apply clr_loop_total; auto.
    unfold st0, clr_init. simpl. now rewrite length_map, range_length.
  - exact labels_close_eq.
Qed.

Lemma clr_loop_stops_witness :
  clr_loop const_regressor [[0]; [0]; [0]]%Q [0; 10; 9]%Q 2 0 None (fun _ => []) 5
    (clr_init const_regressor 2 1000%Q [0; 0; 1] []) <> None.
Proof.
  apply (proj1 (proj2 (clr_loop_stops const_regressor [[0]; [0]; [0]]%Q
                         [0; 10; 9]%Q 2 0 None (fun _ => []) 1000%Q [0; 0; 1] [] 5))).
  - lia.
  - reflexivity.
  - reflexivity.
  - reflexivity.
  - intros m X'. simpl. apply length_map.
Defined.

(** * Further properties of the code *)

(** ** [reassign_labels]: every group id, and the errors *)







(** ** [best_clr]: exceptions and more tries *)

Lemma best_loop_raises {M : Type} (clr_func : nat -> option (result M))
    (tries : list nat) (st : best_state) (i : nat) :
  In i tries -> clr_func i = None -> best_loop clr_func tries st = None.
Proof.
  revert st; induction tries as [|j tries IH]; intros st Hin Hi; simpl in *; [tauto|].
  unfold best_step. destruct (clr_func j) as [r|] eqn:Ej; [|reflexivity].
  destruct Hin as [->|Hin]; [congruence|].
  destruct (flt (r_obj r) (best_obj st)); now apply IH.
Qed.

(** An exception raised by any of the [num_tries] optimizer calls
    propagates out of [best_clr], whatever the other tries returned. *)
Theorem best_clr_propagates (F : Numeric) (R : Regressor) (X : list (list Q))
    (y : list Q) (k : Z) (fuzzy : bool) (n : nat) (kw : kwargs (model R))
    (world : nat -> draw) :
  (exists i, (i < n)%nat /\ nth_try F R X y k fuzzy kw world i = None) ->
  best_clr F R X y k fuzzy n kw world = Err Raised.
Proof.
  intros (i & Hi & Ei). rewrite best_clr_unfold. unfold best_of.
  rewrite (best_loop_raises _ _ _ i); [reflexivity | apply in_seq; lia | exact Ei].
Qed.

Lemma best_clr_propagates_witness :
  best_clr toy_numeric const_regressor [[0]; [1]]%Q [1; 3; 5]%Q 1 false 3
    (plain_kwargs 5) (fun _ => two_point_draw) = Err Raised.
Proof.
  apply best_clr_propagates. exists 2%nat. split; [lia | reflexivity].
Defined.

Lemma best_loop_app {M : Type} (clr_func : nat -> option (result M))
    (l1 l2 : list nat) (st : best_state) :
  best_loop clr_func (l1 ++ l2) st =
  match best_loop clr_func l1 st with
  | None => None
  | Some st' => best_loop clr_func l2 st'
  end.
Proof.
  revert st; induction l1 as [|i l1 IH]; intros st; simpl; [reflexivity|].
  destruct (best_step clr_func st i); [apply IH | reflexivity].
Qed.

Lemma flt_fle (a b : fval) : flt a b = true -> fle a b = true.
Proof.
  destruct a, b; simpl; try discriminate; auto.
  rewrite Qlt_bool_true, Qle_bool_iff. apply Qlt_le_weak.
Qed.

Lemma fle_refl (a : fval) : is_nan a = false -> fle a a = true.
Proof.
  destruct a; simpl; try discriminate; auto.
  intros _. apply Qle_bool_iff, Qle_refl.
Qed.

(** One more try never makes the result worse: if [best_clr] returns [r]
    with [n] tries and the next try returns [r'], then with [n + 1] tries
    it returns [r'] when the objective of [r'] is strictly below that of
    [r], and [r] otherwise; the objective returned is [<=] the former
    one. *)
Theorem best_clr_one_more_try (F : Numeric) (R : Regressor) (X : list (list Q))
    (y : list Q) (k : Z) (fuzzy : bool) (n : nat) (kw : kwargs (model R))
    (world : nat -> draw) (r r' : result (model R)) :
  best_clr F R X y k fuzzy n kw world = Ok r ->
  nth_try F R X y k fuzzy kw world n = Some r' ->
  best_clr F R X y k fuzzy (S n) kw world
  = Ok (if flt (r_obj r') (r_obj r) then r' else r) /\
  fle (r_obj (if flt (r_obj r') (r_obj r) then r' else r)) (r_obj r) = true.
Proof.
  rewrite !best_clr_unfold. intros Hn Hnext.
  pose proof (best_of_selected _ _ _ Hn) as (j & _ & _ & Hfin).
  unfold best_of in *. rewrite seq_S, best_loop_app. simpl.
  destruct (best_loop _ (seq 0 n) _) as [st|]; [|discriminate].
  destruct (best_vars st) as [[[l m] w]|] eqn:Hv; [|discriminate].
  inversion Hn as [Hr]. subst r. simpl in *.
  unfold best_step. rewrite Hnext. destruct r' as [l' m' w' o']. simpl.
  destruct (flt o' (best_obj st)) eqn:Hlt; simpl.
  - split; [reflexivity | now apply flt_fle].
  - rewrite Hv. split; [reflexivity|].
    apply fle_refl. now apply (flt_not_nan _ PInf).
Qed.

Lemma best_clr_one_more_try_witness :
  best_clr toy_numeric const_regressor [[0]; [1]]%Q [1; 3]%Q 1 false 2
    (plain_kwargs 5) (fun _ => two_point_draw)
  = Ok {| r_labels := [0; 0]; r_models := [4 # 2]%Q; r_weights := [2 # 2]%Q;
          r_obj := Fin (32 # 32) |} /\
  fle (Fin (32 # 32)) (Fin (32 # 32)) = true.
Proof.
  apply (best_clr_one_more_try toy_numeric const_regressor [[0]; [1]]%Q
           [1; 3]%Q 1 false 1 (plain_kwargs 5) (fun _ => two_point_draw)
           {| r_labels := [0; 0]; r_models := [4 # 2]%Q; r_weights := [2 # 2]%Q;
              r_obj := Fin (32 # 32) |}
           {| r_labels := [0; 0]; r_models := [4 # 2]%Q; r_weights := [2 # 2]%Q;
              r_obj := Fin (32 # 32) |}); reflexivity.
Defined.

(** ** [clr]: the score matrix *)

Lemma Qsquare_nonneg (a : Q) : (0 <= a * a)%Q.
Proof. unfold Qle; simpl. rewrite Z.mul_1_r. apply Z.square_nonneg. Qed.

Lemma sum_nonneg (v : list Q) :
  (forall x, In x v -> (0 <= x)%Q) -> (0 <= Np.sum v)%Q.
Proof.
  induction v as [|x v IH]; intros H; simpl; [apply Qle_refl|].
  replace 0%Q with (0 + 0)%Q by reflexivity.
  apply Qplus_le_compat; [apply H; simpl; auto | apply IH; intros; apply H; simpl; auto].
Qed.

Lemma zip_with_In (f : Q -> Q -> Q) (a b : list Q) (z : Q) :
  In z (NpMore.zip_with f a b) ->
  exists x w, In x a /\ In w b /\ z = f x w.
Proof.
  unfold NpMore.zip_with. intros H. apply in_map_iff in H.
  destruct H as ([x w] & <- & Hin). exists x, w.
  split; [eapply in_combine_l; eauto | split; [eapply in_combine_r; eauto | reflexivity]].
Qed.

Lemma get_nonneg (v : list Q) (i : Z) :
  (forall x, In x v -> (0 <= x)%Q) -> (0 <= Np.get v i)%Q.
Proof.
  intros H. unfold Np.get.
  destruct (nth_in_or_default (Z.to_nat i) v 0%Q) as [Hin | ->];
    [now apply H | apply Qle_refl].
Qed.

Lemma sq_residuals_nonneg (a b : list Q) (z : Q) :
  In z (NpMore.zip_with (fun u v => (u - v) * (u - v))%Q a b) -> (0 <= z)%Q.
Proof.
  intros H. apply zip_with_In in H. destruct H as (u & v & _ & _ & ->).
  apply Qsquare_nonneg.
Qed.

Lemma sqdist_rows_nonneg (X : list (list Q)) (center : list Q) (d : Q) :
  In d (NpMore.sqdist_rows X center) -> (0 <= d)%Q.
Proof.
  unfold NpMore.sqdist_rows. intros H. apply in_map_iff in H.
  destruct H as (row & <- & _). apply sum_nonneg.
  intros z Hz. eapply sq_residuals_nonneg; eauto.
Qed.

Lemma score_column_nonneg (R : Regressor) X y kmeans_X lbl c (m : model R) s :
  score_column R X y kmeans_X lbl c m = Some s ->
  forall x, In x s -> (0 <= x)%Q.
Proof.
  unfold score_column.
  destruct (NpMore.broadcast _ (predict R m X)) as [p|]; [|discriminate].
  destruct (NpMore.broadcast _ y) as [y'|]; [|discriminate].
  destruct (NpMore.count _ =? 0).
  - intros H; inversion H; subst. intros x Hx. eapply sq_residuals_nonneg; eauto.
  - destruct (negb (Qle_bool kmeans_X 0)) eqn:Hk.
    + destruct (NpMore.masked _ X) as [Xc|]; [|discriminate].
      intros H; inversion H; subst. intros x Hx.
      apply zip_with_In in Hx. destruct Hx as (a & d & Ha & Hd & ->).
      apply negb_true_iff in Hk.
      assert (Hpos : (0 <= kmeans_X)%Q).
      { apply Qlt_le_weak, Qnot_le_lt. intros Hle.
        apply Qle_bool_iff in Hle. congruence. }
      replace 0%Q with (0 + 0)%Q by reflexivity.
      apply Qplus_le_compat; [eapply sq_residuals_nonneg; eauto|].
      apply Qmult_le_0_compat; [exact Hpos | eapply sqdist_rows_nonneg; eauto].
    + intros H; inversion H; subst. intros x Hx. eapply sq_residuals_nonneg; eauto.
Qed.

Lemma mapM_In {A B} (f : A -> option B) l ys z :
  Np.mapM f l = Some ys -> In z ys -> exists x, In x l /\ f x = Some z.
Proof.
  revert ys; induction l as [|x l IH]; simpl; intros ys H Hz.
  - inversion H; subst. destruct Hz.
  - destruct (f x) eqn:Hx; [|discriminate].
    destruct (Np.mapM f l) eqn:Hl; [|discriminate].
    inversion H; subst. destruct Hz as [<-|Hz].
    + exists x. auto.
    + destruct (IH _ eq_refl Hz) as (x' & Hin & Hf). exists x'. auto.
Qed.

(** Whatever the regressor predicts and whatever [kmeans_X] is, every
    entry of the score matrix built by a pass of the loop is non-negative:
    a squared residual, plus a positive multiple of a squared distance when
    [kmeans_X > 0]. *)
Theorem clr_scores_nonneg (R : Regressor) (X : list (list Q)) (y : list Q)
    (k : Z) (kmeans_X : Q) (constr : option (list Z)) (uninit : nat -> list Z)
    (st st' : clr_state R) :
  clr_iter R X y k kmeans_X constr uninit st = Some st' ->
  forall row x, In row (scores R st') -> In x row -> (0 <= x)%Q.
Proof.
  unfold clr_iter.
  destruct (rebuild_models _ _ _ _ _ _) as [ms|]; [|discriminate].
  destruct (Np.mapM _ _) as [cols|] eqn:Hcols; [|discriminate].
  destruct (reassign_labels _ _ _ _) as [lbl|]; [|discriminate].
  intros H; inversion H; subst; clear H. simpl.
  intros row x Hrow Hx. unfold NpMore.rows_of_cols in Hrow.
  apply in_map_iff in Hrow. destruct Hrow as (i & <- & _).
  apply in_map_iff in Hx. destruct Hx as (c & <- & Hc).
  apply get_nonneg.
  destruct (mapM_In _ _ _ _ Hcols Hc) as ([ci m] & _ & Hsc).
  eapply score_column_nonneg; eauto.
Qed.

Lemma clr_scores_nonneg_witness :
  exists st',
    clr_iter const_regressor [[0]; [1]]%Q [0; 4]%Q 1 (-3) None (fun _ => [])
      (clr_init const_regressor 1 0%Q [0; 0] []) = Some st' /\
    forall row x, In row (scores _ st') -> In x row -> (0 <= x)%Q.
Proof.
  destruct (clr_iter const_regressor [[0]; [1]]%Q [0; 4]%Q 1 (-3) None
              (fun _ => []) (clr_init const_regressor 1 0%Q [0; 0] []))
    as [st'|] eqn:E; [|vm_compute in E; discriminate].
  exists st'. split; [reflexivity|].
  exact (clr_scores_nonneg _ _ _ _ _ _ _ _ _ E).
Defined.

(** ** [clr]: initial labels of the wrong length *)

Lemma count_nonneg (mask : list bool) : 0 <= NpMore.count mask.
Proof. induction mask as [|[] mask IH]; simpl; lia. Qed.

Lemma count_In (lbl : list Z) (l : Z) :
  In l lbl -> 0 < NpMore.count (NpMore.eq_mask lbl l).
Proof.
  induction lbl as [|x lbl IH]; [intros []|]. intros [-> | H]; simpl.
  - rewrite Z.eqb_refl. pose proof (count_nonneg (NpMore.eq_mask lbl l)).
    unfold NpMore.eq_mask in *. lia.
  - specialize (IH H). unfold NpMore.eq_mask in *. destruct (x =? l); lia.
Qed.

Lemma mapM_none {A B} (f : A -> option B) (l : list A) (x : A) :
  In x l -> f x = None -> Np.mapM f l = None.
Proof.
  induction l as [|z l IH]; [intros []|]. intros [-> | H] Hx; simpl.
  - now rewrite Hx.
  - destruct (f z); [|reflexivity]. now rewrite (IH H Hx).
Qed.

Lemma combine_map_same {A B} (g : A -> B) (l : list A) :
  combine l (map g l) = map (fun x => (x, g x)) l.
Proof. induction l as [|x l IH]; simpl; [reflexivity | now rewrite IH]. Qed.

(** Initial labels that are not one per point make [clr] raise in its
    first pass, as soon as one of them names a cluster: the mask
    [labels == cl_idx] of that cluster does not fit [X] or [y]
    ([IndexError]).  This holds with and without constraints and whatever
    the regressor is. *)
Theorem clr_labels_length_raises (R : Regressor) (X : list (list Q)) (y : list Q)
    (k : Z) (kmeans_X : Q) (constr : option (list Z)) (uninit : nat -> list Z)
    (lr : model R) (labels0 : list Z) (scores0 : list (list Q)) (max_iter : nat)
    (l : Z) :
  (0 < max_iter)%nat ->
  In l labels0 -> 0 <= l < k ->
  length labels0 <> length X \/ length labels0 <> length y ->
  clr R X y k kmeans_X constr uninit lr max_iter labels0 scores0 = None.
Proof.
  intros Hit Hin Hl Hlen. unfold clr.
  destruct max_iter as [|m]; [lia|]. cbn [clr_loop].
  assert (Hreb : rebuild_models R X y k labels0
                   (map (fun _ => clone R lr) (Np.range k)) = None).
  { unfold rebuild_models. rewrite combine_map_same.
    apply (mapM_none _ _ (l, clone R lr)).
    - apply in_map_iff. exists l. split; [reflexivity | now apply range_In].
    - unfold rebuild_model.
      pose proof (count_In labels0 l Hin) as Hc.
      destruct (NpMore.count (NpMore.eq_mask labels0 l) =? 0) eqn:E;
        [apply Z.eqb_eq in E; lia|].
      unfold NpMore.masked. rewrite !eq_mask_length.
      destruct (length labels0 =? length X)%nat eqn:EX; [|reflexivity].
      destruct (length labels0 =? length y)%nat eqn:Ey; [|reflexivity].
      apply Nat.eqb_eq in EX, Ey. destruct Hlen; contradiction. }
  unfold clr_iter. cbn [labels models clr_init]. now rewrite Hreb.
Qed.

Lemma clr_labels_length_raises_witness :
  clr const_regressor [[0]; [1]]%Q [0; 4]%Q 2 0 None (fun _ => []) 7%Q 5 [0] []
  = None.
Proof.
  apply (clr_labels_length_raises const_regressor [[0]; [1]]%Q [0; 4]%Q 2 0 None
           (fun _ => []) 7%Q [0] [] 5 0).
  - lia.
  - simpl. auto.
  - lia.
  - left. simpl. lia.
Defined.

(** ** [clr]: what an unconstrained run returns *)

Lemma rows_of_cols_length (N : nat) (cols : list (list Q)) :
  length (NpMore.rows_of_cols N cols) = N.
Proof. unfold NpMore.rows_of_cols. rewrite length_map, range_length. lia. Qed.

Lemma rows_of_cols_width (N : nat) (cols : list (list Q)) (row : list Q) :
  In row (NpMore.rows_of_cols N cols) -> length row = length cols.
Proof.
  unfold NpMore.rows_of_cols. intros H. apply in_map_iff in H.
  destruct H as (i & <- & _). apply length_map.
Qed.

(** The state left by a pass of the unconstrained loop: the labels are the
    row-wise argmin of the score matrix, which has [N] rows of [k]
    entries. *)
Lemma clr_iter_shape (R : Regressor) X y k kmeans_X uninit (st st' : clr_state R) :
  clr_iter R X y k kmeans_X None uninit st = Some st' ->
  length (models R st) = Z.to_nat k ->
  Np.mapM Np.argmin (scores R st') = Some (labels R st') /\
  length (scores R st') = length X /\
  (forall row, In row (scores R st') -> length row = Z.to_nat k) /\
  length (models R st') = Z.to_nat k.
Proof.
  intros H Hm. unfold clr_iter in H.
  destruct (rebuild_models _ _ _ _ _ _) as [ms|] eqn:Hreb; [|discriminate].
  destruct (Np.mapM _ _) as [cols|] eqn:Hcols; [|discriminate].
  simpl in H. unfold Np.argmin_axis1 in H.
  destruct (k =? 0); [discriminate|].
  destruct (Np.mapM Np.argmin _) as [lbl|] eqn:Hlbl; [|discriminate].
  inversion H; subst; clear H. simpl.
  assert (Hms : length ms = Z.to_nat k)
    by exact (rebuild_models_length R X y k (labels R st) (models R st) ms Hreb Hm).
  split; [exact Hlbl|]. split; [apply rows_of_cols_length|]. split; [|exact Hms].
  intros row Hrow. rewrite (rows_of_cols_width _ _ _ Hrow).
  apply mapM_length in Hcols. rewrite Hcols, length_combine, range_length. lia.
Qed.

Lemma clr_loop_last (R : Regressor) X y k kmeans_X uninit (m : nat)
    (st fin : clr_state R) :
  clr_loop R X y k kmeans_X None uninit (S m) st = Some fin ->
  length (models R st) = Z.to_nat k ->
  exists prev,
    clr_iter R X y k kmeans_X None uninit prev = Some fin /\
    length (models R prev) = Z.to_nat k.
Proof.
  revert st; induction m as [|m IH]; intros st H Hm; simpl in H.
  - destruct (clr_iter R X y k kmeans_X None uninit st) as [st'|] eqn:E;
      [|discriminate].
    exists st. split; [|exact Hm].
    destruct (labels_close _ _); inversion H; subst; exact E.
  - destruct (clr_iter R X y k kmeans_X None uninit st) as [st'|] eqn:E;
      [|discriminate].
    destruct (labels_close (labels R st') (labels R st)).
    + inversion H; subst. exists st. split; [exact E | exact Hm].
    + apply (IH st' H). now apply (clr_iter_shape _ _ _ _ _ _ _ _ E).
Qed.

Lemma mapM_argmin_range (m : list (list Q)) (lbl : list Z) (w : nat) :
  Np.mapM Np.argmin m = Some lbl ->
  (forall row, In row m -> length row = w) ->
  forall l, In l lbl -> 0 <= l < Z.of_nat w.
Proof.
  intros H Hw l Hl. destruct (mapM_In _ _ _ _ H Hl) as (row & Hrow & Ha).
  apply argmin_first_min in Ha. destruct Ha as (Hb & _).
  rewrite (Hw row Hrow) in Hb. exact Hb.
Qed.

Lemma item_first_min (row : list Q) (l : Z) :
  first_min row l ->
  NpMore.item row l = Some (Np.get row l) /\
  In (Np.get row l) row /\
  forall x, In x row -> (Np.get row l <= x)%Q.
Proof.
  intros (Hb & Hmin & _). unfold NpMore.item.
  replace (0 <=? l) with true by (symmetry; apply Z.leb_le; lia).
  replace (l <? Z.of_nat (length row)) with true by (symmetry; apply Z.ltb_lt; lia).
  split; [reflexivity|]. split.
  - unfold Np.get. apply nth_In. lia.
  - intros x Hx. destruct (In_nth _ _ 0%Q Hx) as (n & Hn & <-).
    specialize (Hmin (Z.of_nat n) ltac:(lia)). unfold Np.get in Hmin at 2.
    now rewrite Nat2Z.id in Hmin.
Qed.

(** Reading the score of every point at its argmin label picks a minimum
    of every row. *)
Lemma take_along_argmin (m : list (list Q)) (idx : list Z) :
  Np.mapM Np.argmin m = Some idx ->
  exists picked,
    NpMore.take_along m idx = Some picked /\
    length picked = length m /\
    forall i, (i < length m)%nat ->
      In (nth i picked 0%Q) (nth i m []) /\
      forall x, In x (nth i m []) -> (nth i picked 0 <= x)%Q.
Proof.
  intros H. unfold NpMore.take_along.
  rewrite <- (mapM_length _ _ _ H), Nat.eqb_refl. simpl.
  revert idx H; induction m as [|row m IH]; intros idx H; simpl in H.
  - inversion H; subst. exists []. repeat split; simpl in *; lia.
  - destruct (Np.argmin row) as [l|] eqn:Hl; [|discriminate].
    destruct (Np.mapM Np.argmin m) as [idx'|] eqn:Hm; [|discriminate].
    inversion H; subst; clear H.
    destruct (IH idx' eq_refl) as (picked & Hp & Hlen & Hall).
    destruct (item_first_min row l (argmin_first_min _ _ Hl)) as (Hit & Hin & Hmin).
    exists (Np.get row l :: picked). simpl. rewrite Hit, Hp.
    split; [reflexivity|]. split; [simpl; lia|].
    intros [|i] Hi; simpl; [split; assumption|]. apply Hall. simpl in Hi. lia.
Qed.

Section ClrResult.

Context (R : Regressor).
Variables (X : list (list Q)) (y : list Q) (k : Z) (kmeans_X : Q).
Variable uninit : nat -> list Z.
Variables (lr : model R) (labels0 : list Z) (scores0 : list (list Q)).
Variable max_iter : nat.
Hypothesis Hk : 0 < k.
Hypothesis Hy : length y = length X.
Hypothesis Hlabels0 : length labels0 = length X.
Hypothesis Hpredict : forall m X', length (predict R m X') = length X'.
Hypothesis Hiter : (0 < max_iter)%nat.

(** With at least one pass, the final state of the unconstrained loop is
    the output of a pass. *)
Lemma clr_final_state :
  exists fin,
    clr_loop R X y k kmeans_X None uninit max_iter
      (clr_init R k lr labels0 scores0) = Some fin /\
    Np.mapM Np.argmin (scores R fin) = Some (labels R fin) /\
    length (scores R fin) = length X /\
    (forall row, In row (scores R fin) -> length row = Z.to_nat k) /\
    length (models R fin) = Z.to_nat k.
Proof.
  assert (Hinit : length (models R (clr_init R k lr labels0 scores0)) = Z.to_nat k)
    by (simpl; now rewrite length_map, range_length).
  destruct (clr_loop R X y k kmeans_X None uninit max_iter
              (clr_init R k lr labels0 scores0)) as [fin|] eqn:Hloop.
  2:{ exfalso. revert Hloop. apply clr_loop_total; auto. }
  exists fin. split; [reflexivity|].
  destruct max_iter as [|m]; [lia|].
  destruct (clr_loop_last _ _ _ _ _ _ _ _ _ Hloop Hinit) as (prev & Hprev & Hm).
  exact (clr_iter_shape _ _ _ _ _ _ _ _ Hprev Hm).
Qed.

End ClrResult.

(** An unconstrained run with [k > 0] clusters, at least one pass, one
    target and one initial label per point and a regressor that predicts
    one value per row raises nothing: it returns one label per point, each
    in [[0, k)], with [k] models and [k] weights. *)
Theorem clr_unconstrained_returns (R : Regressor) (X : list (list Q))
    (y : list Q) (k : Z) (kmeans_X : Q) (uninit : nat -> list Z) (lr : model R)
    (labels0 : list Z) (scores0 : list (list Q)) (max_iter : nat) :
  0 < k ->
  length y = length X ->
  length labels0 = length X ->
  (forall m X', length (predict R m X') = length X') ->
  (0 < max_iter)%nat ->
  exists res,
    clr R X y k kmeans_X None uninit lr max_iter labels0 scores0 = Some res /\
    length (r_labels res) = length X /\
    (forall l, In l (r_labels res) -> 0 <= l < k) /\
    length (r_models res) = Z.to_nat k /\
    length (r_weights res) = Z.to_nat k.
Proof.
  intros Hk Hy Hl0 Hp Hit.
  destruct (clr_final_state R X y k kmeans_X uninit lr labels0 scores0 max_iter
              Hk Hy Hl0 Hp Hit) as (fin & Hloop & Harg & Hrows & Hwidth & Hm).
  destruct (take_along_argmin _ _ Harg) as (picked & Hpick & _ & _).
  unfold clr. rewrite Hloop, Hpick. eexists. split; [reflexivity|]. simpl.
  split; [rewrite (mapM_length _ _ _ Harg); exact Hrows|].
  split; [|split; [exact Hm|]].
  - intros l Hl. pose proof (mapM_argmin_range _ _ _ Harg Hwidth l Hl). lia.
  - unfold clr_weights. now rewrite !length_map, range_length.
Qed.

Lemma clr_unconstrained_returns_witness :
  exists res,
    clr const_regressor [[0]; [0]; [0]]%Q [0; 10; 9]%Q 2 0 None (fun _ => [])
      1000%Q 5 [0; 0; 1] [] = Some res /\
    length (r_labels res) = 3%nat /\
    (forall l, In l (r_labels res) -> 0 <= l < 2) /\
    length (r_models res) = 2%nat /\
    length (r_weights res) = 2%nat.
Proof.
  apply (clr_unconstrained_returns const_regressor [[0]; [0]; [0]]%Q
           [0; 10; 9]%Q 2 0 (fun _ => []) 1000%Q [0; 0; 1] [] 5).
  - lia.
  - reflexivity.
  - reflexivity.
  - intros m X'. simpl. apply length_map.
  - lia.
Defined.

(** The objective returned by such a run is the mean, over the points, of
    the smallest entry of the point's row in the final score matrix: every
    point is charged the score of its best-fitting cluster. *)
Theorem clr_objective_mean_of_minima (R : Regressor) (X : list (list Q))
    (y : list Q) (k : Z) (kmeans_X : Q) (uninit : nat -> list Z) (lr : model R)
    (labels0 : list Z) (scores0 : list (list Q)) (max_iter : nat) :
  0 < k ->
  length y = length X ->
  length labels0 = length X ->
  (forall m X', length (predict R m X') = length X') ->
  (0 < max_iter)%nat ->
  exists res fin picked,
    clr R X y k kmeans_X None uninit lr max_iter labels0 scores0 = Some res /\
    clr_loop R X y k kmeans_X None uninit max_iter
      (clr_init R k lr labels0 scores0) = Some fin /\
    r_obj res = NpMore.mean picked /\
    length picked = length X /\
    forall i, (i < length X)%nat ->
      In (nth i picked 0%Q) (nth i (scores R fin) []) /\
      forall x, In x (nth i (scores R fin) []) -> (nth i picked 0 <= x)%Q.
Proof.
  intros Hk Hy Hl0 Hp Hit.
  destruct (clr_final_state R X y k kmeans_X uninit lr labels0 scores0 max_iter
              Hk Hy Hl0 Hp Hit) as (fin & Hloop & Harg & Hrows & Hwidth & Hm).
  destruct (take_along_argmin _ _ Harg) as (picked & Hpick & Hlen & Hall).
  unfold clr. rewrite Hloop, Hpick. eexists. exists fin, picked.
  split; [reflexivity|]. split; [reflexivity|]. split; [reflexivity|].
  split; [lia|]. intros i Hi. apply Hall. lia.
Qed.

Lemma clr_objective_mean_of_minima_witness :
  exists res fin picked,
    clr const_regressor [[0]; [0]; [0]]%Q [0; 10; 9]%Q 2 0 None (fun _ => [])
      1000%Q 5 [0; 0; 1] [] = Some res /\
    clr_loop const_regressor [[0]; [0]; [0]]%Q [0; 10; 9]%Q 2 0 None
      (fun _ => []) 5 (clr_init const_regressor 2 1000%Q [0; 0; 1] []) = Some fin /\
    r_obj res = NpMore.mean picked /\
    length picked = 3%nat /\
    forall i, (i < 3)%nat ->
      In (nth i picked 0%Q) (nth i (scores _ fin) []) /\
      forall x, In x (nth i (scores _ fin) []) -> (nth i picked 0 <= x)%Q.
Proof.
  apply (clr_objective_mean_of_minima const_regressor [[0]; [0]; [0]]%Q
           [0; 10; 9]%Q 2 0 (fun _ => []) 1000%Q [0; 0; 1] [] 5).
  - lia.
  - reflexivity.
  - reflexivity.
  - intros m X'. simpl. apply length_map.
  - lia.
Defined.

(** ** [clr]: the weights *)

Lemma sum_cons (x : Q) (v : list Q) : Np.sum (x :: v) = (x + Np.sum v)%Q.
Proof. reflexivity. Qed.

Lemma sum_map_plus {A} (f g : A -> Q) (l : list A) :
  (Np.sum (map (fun x => f x + g x) l) == Np.sum (map f l) + Np.sum (map g l))%Q.
Proof.
  induction l as [|x l IH]; simpl; [reflexivity|]. rewrite IH. ring.
Qed.

Lemma sum_map_ext {A} (f g : A -> Q) (l : list A) :
  (forall x, In x l -> (f x == g x)%Q) ->
  (Np.sum (map f l) == Np.sum (map g l))%Q.
Proof.
  induction l as [|x l IH]; intros H; simpl; [reflexivity|].
  rewrite (H x) by (simpl; auto). rewrite IH; [reflexivity|].
  intros; apply H; simpl; auto.
Qed.

Lemma sum_map_div (c : Q) (v : list Q) :
  (Np.sum (map (fun x => x / c) v) == Np.sum v / c)%Q.
Proof.
  induction v as [|x v IH]; simpl.
  - unfold Qdiv. ring.
  - rewrite IH. unfold Qdiv. ring.
Qed.

Lemma sum_indicator (l : Z) (n : nat) (s : Z) :
  (Np.sum (map (fun c => inject_Z (if l =? c then 1 else 0)) (Np.range_from s n))
   == inject_Z (if (s <=? l) && (l <? s + Z.of_nat n) then 1 else 0))%Q.
Proof.
  revert s; induction n as [|n IH]; intros s.
  - simpl. destruct (s <=? l) eqn:E1, (l <? s + 0) eqn:E2; simpl; try reflexivity.
    apply Z.leb_le in E1. apply Z.ltb_lt in E2. lia.
  - cbn [Np.range_from map]. rewrite sum_cons, IH.
    destruct (Z.eqb_spec l s) as [->|Hne].
    + replace ((s + 1 <=? s) && (s <? s + 1 + Z.of_nat n)) with false
        by (symmetry; apply andb_false_iff; left; apply Z.leb_gt; lia).
      replace ((s <=? s) && (s <? s + Z.of_nat (S n))) with true
        by (symmetry; apply andb_true_iff; split;
            [apply Z.leb_le | apply Z.ltb_lt]; lia).
      reflexivity.
    + replace ((s <=? l) && (l <? s + Z.of_nat (S n)))
        with ((s + 1 <=? l) && (l <? s + 1 + Z.of_nat n)).
      * ring.
      * destruct (s + 1 <=? l) eqn:E1, (l <? s + 1 + Z.of_nat n) eqn:E2,
          (s <=? l) eqn:E3, (l <? s + Z.of_nat (S n)) eqn:E4; simpl; try reflexivity;
          rewrite ?Z.leb_le, ?Z.leb_gt, ?Z.ltb_lt, ?Z.ltb_ge in *; lia.
Qed.

Lemma counts_sum (k : Z) (lbl : list Z) :
  (forall l, In l lbl -> 0 <= l < k) ->
  (Np.sum (map (fun c => inject_Z (NpMore.count (NpMore.eq_mask lbl c))) (Np.range k))
   == inject_Z (Z.of_nat (length lbl)))%Q.
Proof.
  induction lbl as [|l lbl IH]; intros H.
  - simpl. induction (Np.range k) as [|c r IHr]; simpl; [reflexivity|].
    rewrite IHr. reflexivity.
  - rewrite (sum_map_ext _
               (fun c => inject_Z (if l =? c then 1 else 0)
                         + inject_Z (NpMore.count (NpMore.eq_mask lbl c)))%Q).
    + rewrite sum_map_plus, IH by (intros; apply H; simpl; auto).
      unfold Np.range. rewrite sum_indicator.
      specialize (H l ltac:(simpl; auto)).
      replace ((0 <=? l) && (l <? 0 + Z.of_nat (Z.to_nat k))) with true
        by (symmetry; apply andb_true_iff; split;
            [apply Z.leb_le | apply Z.ltb_lt]; lia).
      rewrite <- inject_Z_plus. apply inject_Z_injective.
      simpl length. lia.
    + intros c _. simpl. rewrite <- inject_Z_plus.
      destruct (l =? c); apply inject_Z_injective; lia.
Qed.

(** The weights are the fractions of points per cluster: when every label
    lies in [[0, k)] and there is at least one point, entry [c] is the
    number of points labelled [c] over the number of points, and the
    entries sum to 1. *)
Theorem clr_weights_fractions (k : Z) (lbl : list Z) :
  (forall l, In l lbl -> 0 <= l < k) ->
  lbl <> [] ->
  (Np.sum (clr_weights k lbl) == 1)%Q /\
  forall c, 0 <= c < k ->
    (Np.get (clr_weights k lbl) c
     == inject_Z (NpMore.count (NpMore.eq_mask lbl c))
        / inject_Z (Z.of_nat (length lbl)))%Q.
Proof.
  intros Hrange Hne. unfold clr_weights.
  set (counts := map (fun c => inject_Z (NpMore.count (NpMore.eq_mask lbl c)))
                     (Np.range k)).
  assert (Hsum : (Np.sum counts == inject_Z (Z.of_nat (length lbl)))%Q)
    by now apply counts_sum.
  assert (Hnz : ~ (inject_Z (Z.of_nat (length lbl)) == 0)%Q).
  { intros E. unfold Qeq in E. cbn [Qnum Qden inject_Z] in E.
    destruct lbl; [congruence | simpl length in E; lia]. }
  split.
  - rewrite (sum_map_div (Np.sum counts) counts), Hsum.
    unfold Qdiv. now apply Qmult_inv_r.
  - intros c Hc. unfold Np.get.
    assert (Hlen : length counts = Z.to_nat k)
      by (unfold counts; now rewrite length_map, range_length).
    assert (Hc2 : nth (Z.to_nat c) counts 0%Q
                  = inject_Z (NpMore.count (NpMore.eq_mask lbl c))).
    { unfold counts.
      rewrite (nth_indep _ 0%Q
                 (inject_Z (NpMore.count (NpMore.eq_mask lbl 0))))
        by (rewrite length_map, range_length; lia).
      rewrite (map_nth (fun c => inject_Z (NpMore.count (NpMore.eq_mask lbl c)))).
      unfold Np.range. rewrite range_from_nth by lia.
      now replace (0 + Z.of_nat (Z.to_nat c)) with c by lia. }
    rewrite (nth_indep _ 0%Q (0 / Np.sum counts)%Q)
      by (rewrite length_map; lia).
    rewrite (map_nth (fun x => (x / Np.sum counts)%Q)), Hc2, Hsum.
    reflexivity.
Qed.

Lemma clr_weights_fractions_witness :
  (Np.sum (clr_weights 2 [0; 1; 1]%Z) == 1)%Q /\
  forall c, 0 <= c < 2 ->
    (Np.get (clr_weights 2 [0; 1; 1]%Z) c
     == inject_Z (NpMore.count (NpMore.eq_mask [0; 1; 1]%Z c))
        / inject_Z (Z.of_nat (length [0; 1; 1]%Z)))%Q.
Proof.
  apply (clr_weights_fractions 2 [0; 1; 1]).
  - intros l [<-|[<-|[<-|[]]]]; lia.
  - discriminate.
Defined.

(** ** [clr]: a single cluster *)

Lemma all_zero_eq (a b : list Z) :
  length a = length b ->
  (forall l, In l a -> l = 0) -> (forall l, In l b -> l = 0) -> a = b.
Proof.
  revert b; induction a as [|x a IH]; intros [|z b] Hl Ha Hb; simpl in *;
    try discriminate; [reflexivity|].
  rewrite (Ha x), (Hb z) by auto. f_equal. apply IH; auto.
Qed.

(** With [k = 1] and every point initially in cluster 0, the loop stops at
    the end of its first pass, with every point still in cluster 0. *)
Theorem clr_single_cluster (R : Regressor) (X : list (list Q)) (y : list Q)
    (kmeans_X : Q) (uninit : nat -> list Z) (lr : model R) (labels0 : list Z)
    (scores0 : list (list Q)) (max_iter : nat) :
  length y = length X ->
  length labels0 = length X ->
  (forall l, In l labels0 -> l = 0) ->
  (forall m X', length (predict R m X') = length X') ->
  (0 < max_iter)%nat ->
  exists fin,
    clr_loop R X y 1 kmeans_X None uninit max_iter
      (clr_init R 1 lr labels0 scores0) = Some fin /\
    it R fin = 1%nat /\
    labels R fin = labels0.
Proof.
  intros Hy Hl0 Hzero Hp Hit.
  assert (Hinit : length (models R (clr_init R 1 lr labels0 scores0)) = Z.to_nat 1)
    by reflexivity.
  destruct (clr_iter_total R X y 1 kmeans_X uninit ltac:(lia) Hy Hp
              (clr_init R 1 lr labels0 scores0) Hinit Hl0)
    as (st' & Hstep & _).
  destruct (clr_iter_shape _ _ _ _ _ _ _ _ Hstep Hinit)
    as (Harg & Hrows & Hwidth & _).
  assert (Hlabels : labels R st' = labels0).
  { apply all_zero_eq; [| |exact Hzero].
    - rewrite (mapM_length _ _ _ Harg). lia.
    - intros l Hl. pose proof (mapM_argmin_range _ _ _ Harg Hwidth l Hl). lia. }
  assert (Hcount : it R st' = 1%nat).
  { unfold clr_iter in Hstep.
    destruct (rebuild_models _ _ _ _ _ _); [|discriminate].
    destruct (Np.mapM _ _); [|discriminate].
    destruct (reassign_labels _ _ _ _); [|discriminate].
    inversion Hstep; reflexivity. }
  exists st'. destruct max_iter as [|m]; [lia|]. simpl. rewrite Hstep.
  replace (labels_close (labels R st') labels0) with true; [auto|].
  symmetry. apply labels_close_eq; [rewrite Hlabels; reflexivity | | exact Hlabels].
  intros x Hx. rewrite (Hzero x Hx). lia.
Qed.

Lemma clr_single_cluster_witness :
  exists fin,
    clr_loop const_regressor [[0]; [1]]%Q [1; 3]%Q 1 0 None (fun _ => []) 5
      (clr_init const_regressor 1 0%Q [0; 0] []) = Some fin /\
    it _ fin = 1%nat /\
    labels _ fin = [0; 0].
Proof.
  apply (clr_single_cluster const_regressor [[0]; [1]]%Q [1; 3]%Q 0
           (fun _ => []) 0%Q [0; 0] [] 5).
  - reflexivity.
  - reflexivity.
  - intros l [<-|[<-|[]]]; reflexivity.
  - intros m X'. simpl. apply length_map.
  - lia.
Defined.

(** ** The fuzzy loop *)

Section FuzzyLoop.

Context (F : Numeric) (R : Regressor).
Variables (X : list (list Q)) (y : list Q) (k : Z) (kmeans_X : Q).

#[local] Abbreviation fiter := (fuzzy_iter F R X y k kmeans_X).
#[local] Abbreviation floop := (fuzzy_loop F R X y k kmeans_X).
#[local] Abbreviation fiterate := (fuzzy_iterate F R X y k kmeans_X).
#[local] Abbreviation fclose_at := (fuzzy_close_at F R X y k kmeans_X).

Lemma fuzzy_iterate_shift (n : nat) (st : fuzzy_state R) :
  fiterate (S n) st =
  match fiter st with
  | None => None
  | Some st' => fiterate n st'
  end.
Proof.
  induction n as [|n IH].
  - simpl. now destruct (fiter st).
  - change (fiterate (S (S n)) st)
      with (match fiterate (S n) st with None => None | Some s => fiter s end).
    rewrite IH. destruct (fiter st); reflexivity.
Qed.

Lemma fuzzy_close_at_shift (st st' : fuzzy_state R) (j : nat) :
  fiter st = Some st' -> fclose_at st (S j) = fclose_at st' j.
Proof.
  intros H. unfold fuzzy_close_at.
  rewrite (fuzzy_iterate_shift (S j)), (fuzzy_iterate_shift j), H. reflexivity.
Qed.

Lemma fuzzy_iter_count (st st' : fuzzy_state R) :
  fiter st = Some st' -> fit_count R st' = S (fit_count R st).
Proof.
  unfold fuzzy_iter. destruct (Np.mapM _ _); [|discriminate].
  intros H; inversion H; reflexivity.
Qed.

Lemma fuzzy_loop_trace (max_iter : nat) (st fin : fuzzy_state R) :
  floop max_iter st = Some fin ->
  exists n, (n <= max_iter)%nat /\
    fiterate n st = Some fin /\
    fit_count R fin = (fit_count R st + n)%nat /\
    (forall j, (S j < n)%nat -> fclose_at st j = false) /\
    (n < max_iter -> exists j, n = S j /\ fclose_at st j = true)%nat.
Proof.
  revert st; induction max_iter as [|m IH]; intros st H; simpl in H.
  - inversion H; subst. exists 0%nat. repeat split; lia.
  - destruct (fiter st) as [st'|] eqn:Hit; [|discriminate].
    pose proof (fuzzy_iter_count _ _ Hit) as Hcnt.
    destruct (q_close (q R st) (q R st')) eqn:Hc.
    + inversion H; subst. exists 1%nat. repeat split; try lia.
      * simpl. exact Hit.
      * intros _. exists 0%nat. split; [reflexivity|].
        unfold fuzzy_close_at. simpl. now rewrite Hit.
    + destruct (IH _ H) as (n & Hn & Hrun & Hcount & Hbefore & Hstop).
      exists (S n). repeat split; try lia.
      * rewrite fuzzy_iterate_shift, Hit. exact Hrun.
      * intros [|j] Hj.
        -- unfold fuzzy_close_at. simpl. now rewrite Hit.
        -- rewrite (fuzzy_close_at_shift st st' j Hit). apply Hbefore. lia.
      * intros Hlt. destruct Hstop as (j & -> & Hj); [lia|].
        exists (S j). split; [reflexivity|].
        now rewrite (fuzzy_close_at_shift st st' j Hit).
Qed.

End FuzzyLoop.

(** When the fuzzy loop returns it has run [n <= max_iter] passes: the
    test [np.allclose(q_prev, q, atol=1e-5)] failed at the end of every
    pass before the [n]-th, and [n < max_iter] only if the test succeeded
    at the end of the [n]-th pass; nothing else stops the loop. *)
Theorem fuzzy_loop_stops (F : Numeric) (R : Regressor) (X : list (list Q))
    (y : list Q) (k : Z) (kmeans_X : Q) (max_iter : nat)
    (st0 fin : fuzzy_state R) :
  fuzzy_loop F R X y k kmeans_X max_iter st0 = Some fin ->
  exists n, (n <= max_iter)%nat /\
    fuzzy_iterate F R X y k kmeans_X n st0 = Some fin /\
    fit_count R fin = (fit_count R st0 + n)%nat /\
    (forall j, (S j < n)%nat ->
       fuzzy_close_at F R X y k kmeans_X st0 j = false) /\
    (n < max_iter ->
     exists j, n = S j /\ fuzzy_close_at F R X y k kmeans_X st0 j = true)%nat.
Proof. apply fuzzy_loop_trace. Qed.

Lemma fuzzy_loop_stops_witness :
  exists fin n, (n <= 5)%nat /\
    fuzzy_iterate toy_numeric const_regressor [[0]; [1]]%Q [1; 3]%Q 2 0 n
      small_fuzzy_init = Some fin /\
    fit_count _ fin = (fit_count _ small_fuzzy_init + n)%nat /\
    (forall j, (S j < n)%nat ->
       fuzzy_close_at toy_numeric const_regressor [[0]; [1]]%Q [1; 3]%Q 2 0
         small_fuzzy_init j = false) /\
    (n < 5 ->
     exists j, n = S j /\
       fuzzy_close_at toy_numeric const_regressor [[0]; [1]]%Q [1; 3]%Q 2 0
         small_fuzzy_init j = true)%nat.
Proof.
  destruct (fuzzy_loop toy_numeric const_regressor [[0]; [1]]%Q [1; 3]%Q 2 0 5
              small_fuzzy_init) as [fin|] eqn:E; [|vm_compute in E; discriminate].
  exists fin.
  exact (fuzzy_loop_stops _ _ _ _ _ _ _ _ _ E).
Defined.

(** ** The tolerance of the fuzzy convergence test *)

Lemma allclose_Forall2 (rtol atol : Q) (a b : list Q) :
  NpMore.allclose rtol atol a b = true <->
  Forall2 (fun x z => (Qabs (x - z) <= atol + rtol * Qabs z)%Q) a b.
Proof.
  revert b; induction a as [|x a IH]; intros [|z b]; simpl.
  - split; [constructor | reflexivity].
  - split; [discriminate | intros H; inversion H].
  - split; [discriminate | intros H; inversion H].
  - rewrite andb_true_iff, IH. unfold NpMore.isclose. rewrite Qle_bool_iff.
    split; [intros [H1 H2]; now constructor | intros H; inversion H; auto].
Qed.

(** The test of [fuzzy_clr] passes as soon as all entries of the two
    responsibility matrices are within [1e-5] of each other, and when it
    passes with new responsibilities in [[0, 1]] all entries are within
    [2e-5]: the default relative tolerance of [np.allclose] adds up to
    [1e-5] to the absolute tolerance that the call sets. *)
Theorem q_close_tolerance (q_prev q_new : list (list Q)) :
  (Forall2 (fun a b => (Qabs (a - b) <= 1 # 100000)%Q)
     (concat q_prev) (concat q_new) ->
   q_close q_prev q_new = true) /\
  (q_close q_prev q_new = true ->
   (forall b, In b (concat q_new) -> (0 <= b <= 1)%Q) ->
   Forall2 (fun a b => (Qabs (a - b) <= 2 # 100000)%Q)
     (concat q_prev) (concat q_new)).
Proof.
  unfold q_close. rewrite allclose_Forall2. split.
  - intros H. induction H as [|a b l l' Hab _ IH]; constructor; [|exact IH].
    eapply Qle_trans; [exact Hab|].
    rewrite <- (Qplus_0_r (1 # 100000)) at 1.
    apply Qplus_le_r. apply Qmult_le_0_compat; [discriminate | apply Qabs_nonneg].
  - intros H. induction H as [|a b l l' Hab _ IH]; intros Hb; constructor.
    + eapply Qle_trans; [exact Hab|].
      destruct (Hb b (or_introl eq_refl)) as [H0 H1].
      rewrite (Qabs_pos b H0).
      apply (Qle_trans _ ((1 # 100000) + (1 # 100000) * 1)%Q);
        [|vm_compute; discriminate].
      apply Qplus_le_r. apply Qmult_le_l; [reflexivity | exact H1].
    + apply IH. intros z Hz. apply Hb. now right.
Qed.

Lemma q_close_tolerance_witness :
  q_close [[1 # 2; 1 # 2]]%Q [[500001 # 1000000; 499999 # 1000000]]%Q = true.
Proof.
  apply (proj1 (q_close_tolerance [[1 # 2; 1 # 2]]%Q
                  [[500001 # 1000000; 499999 # 1000000]]%Q)).
  repeat constructor; vm_compute; discriminate.
Defined.

Example q_close_beyond_atol :
  q_close [[500012 # 1000000; 499988 # 1000000]]%Q [[1 # 2; 1 # 2]]%Q = true.
Proof. reflexivity. Qed.

(** ** A pass of the fuzzy loop *)

Lemma zip_with_length (f : Q -> Q -> Q) (a b : list Q) :
  length (NpMore.zip_with f a b) = Nat.min (length a) (length b).
Proof. unfold NpMore.zip_with. now rewrite length_map, length_combine. Qed.

Lemma zip_with_map_map {A} (f : Q -> Q -> Q) (g h : A -> Q) (l : list A) :
  NpMore.zip_with f (map g l) (map h l) = map (fun x => f (g x) (h x)) l.
Proof.
  unfold NpMore.zip_with. induction l as [|x l IH]; simpl; [reflexivity|].
  now rewrite IH.
Qed.

Lemma get_map_mult (lm : Q) (v : list Q) (i : Z) :
  0 <= i < Z.of_nat (length v) ->
  Np.get (map (Qmult lm) v) i = (lm * Np.get v i)%Q.
Proof.
  intros Hi. unfold Np.get.
  rewrite (nth_indep _ 0%Q (lm * 0)%Q) by (rewrite length_map; lia).
  apply (map_nth (Qmult lm)).
Qed.

Section FuzzyPass.

Context (F : Numeric) (R : Regressor).
Variables (X : list (list Q)) (y : list Q) (k : Z) (kmeans_X : Q).

Lemma fuzzy_cluster_spec (qm : list (list Q)) (c : Z) (m : model R) (cl : cluster R) :
  fuzzy_cluster F R X y kmeans_X qm c m = Some cl ->
  c_lmbda R cl = (Np.sum (Np.col qm c) / inject_Z (Z.of_nat (length X)))%Q /\
  length (c_probs R cl) = length X.
Proof.
  unfold fuzzy_cluster.
  destruct (negb _) eqn:Hchk; [discriminate|].
  apply negb_false_iff, andb_true_iff in Hchk. destruct Hchk as [Hp Hy].
  apply Nat.eqb_eq in Hp, Hy.
  intros H; inversion H; subst; clear H. simpl. split; [reflexivity|].
  unfold sq_residuals, NpMore.sqdist_rows.
  rewrite !zip_with_length, length_map. lia.
Qed.

Lemma fuzzy_cluster_total (qm : list (list Q)) (c : Z) (m : model R) :
  length y = length X ->
  (forall m' X', length (predict R m' X') = length X') ->
  fuzzy_cluster F R X y kmeans_X qm c m <> None.
Proof.
  intros Hy Hp. unfold fuzzy_cluster.
  rewrite Hp, Hy, Nat.eqb_refl. simpl. discriminate.
Qed.

Lemma fuzzy_lmbda_nth (qm : list (list Q)) (n : nat) (s : Z)
    (ms : list (model R)) (cs : list (cluster R)) (j : nat) :
  Np.mapM (fun '(cl_idx, m) => fuzzy_cluster F R X y kmeans_X qm cl_idx m)
          (combine (Np.range_from s n) ms) = Some cs ->
  (j < length cs)%nat ->
  nth j (map (c_lmbda R) cs) 0%Q
  = (Np.sum (Np.col qm (s + Z.of_nat j)) / inject_Z (Z.of_nat (length X)))%Q.
Proof.
  revert s ms cs j; induction n as [|n IH]; intros s ms cs j H Hj; simpl in H.
  - inversion H; subst. simpl in Hj. lia.
  - destruct ms as [|m ms]; simpl in H; [inversion H; subst; simpl in Hj; lia|].
    destruct (fuzzy_cluster F R X y kmeans_X qm s m) as [cl|] eqn:Hcl;
      [|discriminate].
    destruct (Np.mapM _ _) as [cs'|] eqn:Hcs'; [|discriminate].
    inversion H; subst; clear H. destruct j as [|j]; simpl.
    + rewrite Z.add_0_r. now apply fuzzy_cluster_spec in Hcl.
    + rewrite (IH (s + 1) ms cs' j Hcs') by (simpl in Hj; lia).
      do 3 f_equal. lia.
Qed.

(** What a pass leaves: the mixing weight of a cluster is the mean of its
    column of the incoming responsibilities, and the outgoing
    responsibilities are the rows of [lmbda * probs], normalised. *)
Lemma fuzzy_iter_spec (st st' : fuzzy_state R) :
  fuzzy_iter F R X y k kmeans_X st = Some st' ->
  length (fmodels R st) = Z.to_nat k ->
  length (fmodels R st') = Z.to_nat k /\
  length (lmbda R st') = Z.to_nat k /\
  (forall c, 0 <= c < k ->
     Np.get (lmbda R st') c
     = (Np.sum (Np.col (q R st) c) / inject_Z (Z.of_nat (length X)))%Q) /\
  q R st' = NpMat.normalize_rows (unnormalized R st') /\
  length (q R st') = length X /\
  (forall row, In row (q R st') -> length row = Z.to_nat k).
Proof.
  intros H Hm. unfold fuzzy_iter in H.
  destruct (Np.mapM _ _) as [cs|] eqn:Hcs; [|discriminate].
  inversion H; subst; clear H. unfold unnormalized. simpl.
  assert (Hlen : length cs = Z.to_nat k).
  { apply mapM_length in Hcs. rewrite Hcs, length_combine, range_length. lia. }
  split; [now rewrite length_map|]. split; [now rewrite length_map|].
  split; [|split; [|split]].
  - intros c Hc. unfold Np.get.
    rewrite (fuzzy_lmbda_nth _ _ _ _ _ (Z.to_nat c) Hcs) by lia.
    do 3 f_equal. lia.
  - f_equal. unfold NpMore.rows_of_cols. rewrite map_map.
    apply map_ext_in. intros i Hi. apply range_In in Hi.
    rewrite !map_map, zip_with_map_map. apply map_ext_in. intros cl Hcl.
    destruct (mapM_In _ _ _ _ Hcs Hcl) as ([ci m] & _ & Hspec).
    apply fuzzy_cluster_spec in Hspec. destruct Hspec as [_ Hpl].
    apply get_map_mult. lia.
  - unfold NpMat.normalize_rows. now rewrite length_map, rows_of_cols_length.
  - intros row Hrow. unfold NpMat.normalize_rows in Hrow.
    apply in_map_iff in Hrow. destruct Hrow as (u & <- & Hu).
    rewrite length_map, (rows_of_cols_width _ _ _ Hu), length_map. exact Hlen.
Qed.

Lemma fuzzy_iter_total (st : fuzzy_state R) :
  length y = length X ->
  (forall m' X', length (predict R m' X') = length X') ->
  fuzzy_iter F R X y k kmeans_X st <> None.
Proof.
  intros Hy Hp. unfold fuzzy_iter.
  destruct (mapM_total
              (fun '(cl_idx, m) => fuzzy_cluster F R X y kmeans_X (q R st) cl_idx m)
              (combine (Np.range k) (fmodels R st))) as [cs Hcs].
  { intros [c m] _. now apply fuzzy_cluster_total. }
  rewrite Hcs. discriminate.
Qed.

End FuzzyPass.

(** ** Responsibilities: rows that sum to one *)

Lemma normalize_row_sum (row : list Q) :
  ~ (Np.sum row == 0)%Q ->
  (Np.sum (map (fun x => x / Np.sum row) row) == 1)%Q.
Proof.
  intros Hnz. rewrite (sum_map_div (Np.sum row) row).
  unfold Qdiv. now apply Qmult_inv_r.
Qed.

Lemma normalize_rows_nth (m : list (list Q)) (i : nat) :
  nth i (NpMat.normalize_rows m) []
  = map (fun x => (x / Np.sum (nth i m []))%Q) (nth i m []).
Proof.
  unfold NpMat.normalize_rows.
  change [] with ((fun row : list Q => map (fun x => (x / Np.sum row)%Q) row) [])
    at 1.
  apply (map_nth (fun row : list Q => map (fun x => (x / Np.sum row)%Q) row)).
Qed.

(** Row [i] of the responsibilities sums to 1 after the initialisation when
    the drawn row does not sum to 0, and after a pass when the normaliser
    of the row, the sum over the clusters of [lmbda[c] * probs[i, c]], is
    not 0. *)
Theorem fuzzy_rows_sum_to_one (F : Numeric) (R : Regressor) (X : list (list Q))
    (y : list Q) (k : Z) (kmeans_X : Q) (lr : model R) (rand : list (list Q))
    (lmbda0 : list Q) (probs0 : list (list Q)) (st st' : fuzzy_state R) (i : nat) :
  (~ (Np.sum (nth i rand []) == 0)%Q ->
   (Np.sum (nth i (q R (fuzzy_init R k lr rand lmbda0 probs0)) []) == 1)%Q) /\
  (fuzzy_iter F R X y k kmeans_X st = Some st' ->
   length (fmodels R st) = Z.to_nat k ->
   ~ (Np.sum (nth i (unnormalized R st') []) == 0)%Q ->
   (Np.sum (nth i (q R st') []) == 1)%Q).
Proof.
  split.
  - intros Hnz. simpl. rewrite normalize_rows_nth. now apply normalize_row_sum.
  - intros Hstep Hm Hnz.
    destruct (fuzzy_iter_spec F R X y k kmeans_X st st' Hstep Hm)
      as (_ & _ & _ & Hq & _).
    rewrite Hq, normalize_rows_nth. now apply normalize_row_sum.
Qed.

Lemma fuzzy_rows_sum_to_one_witness :
  exists st',
    fuzzy_iter toy_numeric const_regressor [[0]; [1]]%Q [1; 3]%Q 2 0
      small_fuzzy_init = Some st' /\
    (Np.sum (nth 0 (q _ small_fuzzy_init) []) == 1)%Q /\
    (Np.sum (nth 0 (q _ st') []) == 1)%Q.
Proof.
  destruct (fuzzy_iter toy_numeric const_regressor [[0]; [1]]%Q [1; 3]%Q 2 0
              small_fuzzy_init) as [st'|] eqn:E; [|vm_compute in E; discriminate].
  exists st'. split; [reflexivity|].
  pose proof (fuzzy_rows_sum_to_one toy_numeric const_regressor [[0]; [1]]%Q
                [1; 3]%Q 2 0 0%Q [[1; 3]; [2; 2]]%Q [0; 0]%Q [[0; 0]; [0; 0]]%Q
                small_fuzzy_init st' 0) as [Hinit Hpass].
  split.
  - apply Hinit. vm_compute. discriminate.
  - apply (Hpass E eq_refl).
    vm_compute in E. inversion E; subst. vm_compute. discriminate.
Defined.

(** ** Mixing weights *)

Lemma map_get_range_from (v pre : list Q) :
  map (Np.get (pre ++ v)) (Np.range_from (Z.of_nat (length pre)) (length v)) = v.
Proof.
  revert pre; induction v as [|x v IH]; intros pre; simpl; [reflexivity|].
  rewrite get_app_here. f_equal.
  replace (pre ++ x :: v) with ((pre ++ [x]) ++ v) by (now rewrite <- app_assoc).
  replace (Z.of_nat (length pre) + 1) with (Z.of_nat (length (pre ++ [x])))
    by (rewrite length_app; simpl; lia).
  apply IH.
Qed.

Lemma map_get_range (v : list Q) :
  map (Np.get v) (Np.range (Z.of_nat (length v))) = v.
Proof.
  unfold Np.range. rewrite Nat2Z.id. exact (map_get_range_from v []).
Qed.

(** Summing the column sums is summing the row sums. *)
Lemma sum_columns_rows (m : list (list Q)) (k : Z) :
  (forall row, In row m -> Z.of_nat (length row) = k) ->
  (Np.sum (map (fun c => Np.sum (Np.col m c)) (Np.range k))
   == Np.sum (map Np.sum m))%Q.
Proof.
  induction m as [|row m IH]; intros Hw.
  - simpl. induction (Np.range k) as [|c r IHr]; simpl; [reflexivity|].
    rewrite IHr. reflexivity.
  - change (map (fun c => Np.sum (Np.col (row :: m) c)) (Np.range k))
      with (map (fun c => (Np.get row c + Np.sum (Np.col m c))%Q) (Np.range k)).
    rewrite sum_map_plus, IH by (intros; apply Hw; simpl; auto).
    rewrite <- (Hw row) at 1 by (simpl; auto).
    rewrite map_get_range. reflexivity.
Qed.

Lemma sum_ones (m : list (list Q)) :
  (forall row, In row m -> (Np.sum row == 1)%Q) ->
  (Np.sum (map Np.sum m) == inject_Z (Z.of_nat (length m)))%Q.
Proof.
  induction m as [|row m IH]; intros H; [reflexivity|].
  assert (H1 : (Np.sum row == 1)%Q) by (apply H; simpl; auto).
  assert (H2 : (Np.sum (map Np.sum m) == inject_Z (Z.of_nat (length m)))%Q)
    by (apply IH; intros; apply H; simpl; auto).
  cbn [map]. rewrite sum_cons, H1, H2.
  rewrite <- (inject_Z_plus 1). apply inject_Z_injective. simpl length. lia.
Qed.

Lemma sum_by_index (v : list Q) :
  Np.sum v = Np.sum (map (Np.get v) (Np.range (Z.of_nat (length v)))).
Proof. now rewrite map_get_range. Qed.

(** After an M-step the mixing weight of cluster [c] is the mean of
    column [c] of the responsibilities over all [N] points; when the
    responsibilities have [k] columns and every row sums to 1, the mixing
    weights sum to 1. *)
Theorem fuzzy_lmbda_column_means (F : Numeric) (R : Regressor)
    (X : list (list Q)) (y : list Q) (k : Z) (kmeans_X : Q)
    (st st' : fuzzy_state R) :
  fuzzy_iter F R X y k kmeans_X st = Some st' ->
  length (fmodels R st) = Z.to_nat k ->
  (forall c, 0 <= c < k ->
     Np.get (lmbda R st') c
     = (Np.sum (Np.col (q R st) c) / inject_Z (Z.of_nat (length X)))%Q) /\
  (0 <= k -> X <> [] -> length (q R st) = length X ->
   (forall row, In row (q R st) ->
      Z.of_nat (length row) = k /\ (Np.sum row == 1)%Q) ->
   (Np.sum (lmbda R st') == 1)%Q).
Proof.
  intros Hstep Hm.
  destruct (fuzzy_iter_spec F R X y k kmeans_X st st' Hstep Hm)
    as (_ & Hlen & Hget & _).
  split; [exact Hget|]. intros Hk HX HN Hrows.
  rewrite sum_by_index, Hlen, Z2Nat.id by lia.
  rewrite (sum_map_ext _
             (fun c => (Np.sum (Np.col (q R st) c)
                        / inject_Z (Z.of_nat (length X)))%Q)).
  2:{ intros c Hc. apply range_In in Hc. now rewrite Hget. }
  rewrite <- (map_map (fun c => Np.sum (Np.col (q R st) c))
                      (fun x => (x / inject_Z (Z.of_nat (length X)))%Q)).
  rewrite sum_map_div, sum_columns_rows, sum_ones, HN.
  - unfold Qdiv. apply Qmult_inv_r. intros E. unfold Qeq in E.
    cbn [Qnum Qden inject_Z] in E. destruct X; [congruence | simpl length in E; lia].
  - intros row Hrow. now apply Hrows.
  - intros row Hrow. now apply Hrows.
Qed.

Lemma fuzzy_lmbda_column_means_witness :
  exists st',
    fuzzy_iter toy_numeric const_regressor [[0]; [1]]%Q [1; 3]%Q 2 0
      small_fuzzy_init = Some st' /\
    (Np.sum (lmbda _ st') == 1)%Q.
Proof.
  destruct (fuzzy_iter toy_numeric const_regressor [[0]; [1]]%Q [1; 3]%Q 2 0
              small_fuzzy_init) as [st'|] eqn:E; [|vm_compute in E; discriminate].
  exists st'. split; [reflexivity|].
  apply (proj2 (fuzzy_lmbda_column_means toy_numeric const_regressor
                  [[0]; [1]]%Q [1; 3]%Q 2 0 small_fuzzy_init st' E eq_refl)).
  - lia.
  - discriminate.
  - reflexivity.
  - intros row Hrow. vm_compute in Hrow.
    destruct Hrow as [<-|[<-|[]]]; split; vm_compute; reflexivity.
Defined.

(** ** Responsibilities: non-negative entries *)

Lemma Qdiv_nonneg (a b : Q) : (0 <= a)%Q -> (0 <= b)%Q -> (0 <= a / b)%Q.
Proof.
  intros Ha Hb. unfold Qdiv.
  apply Qmult_le_0_compat; [exact Ha | now apply Qinv_le_0_compat].
Qed.

Lemma normalize_rows_nonneg (m : list (list Q)) :
  (forall row x, In row m -> In x row -> (0 <= x)%Q) ->
  forall row x, In row (NpMat.normalize_rows m) -> In x row -> (0 <= x)%Q.
Proof.
  intros H row x Hrow Hx. unfold NpMat.normalize_rows in Hrow.
  apply in_map_iff in Hrow. destruct Hrow as (u & <- & Hu).
  apply in_map_iff in Hx. destruct Hx as (z & <- & Hz).
  apply Qdiv_nonneg; [now apply (H u) | apply sum_nonneg; intros; now apply (H u)].
Qed.

Section FuzzyNonneg.

Context (F : Numeric) (R : Regressor).
Variables (X : list (list Q)) (y : list Q) (k : Z) (kmeans_X : Q).
Hypothesis Hexp : forall x, (0 <= exp F x)%Q.
Hypothesis Hsqrt : forall x, (0 <= sqrt F x)%Q.

Lemma fuzzy_cluster_nonneg (qm : list (list Q)) (c : Z) (m : model R)
    (cl : cluster R) :
  fuzzy_cluster F R X y kmeans_X qm c m = Some cl ->
  (forall row x, In row qm -> In x row -> (0 <= x)%Q) ->
  (0 <= c_lmbda R cl)%Q /\ forall p, In p (c_probs R cl) -> (0 <= p)%Q.
Proof.
  unfold fuzzy_cluster. destruct (negb _); [discriminate|].
  intros H Hq; inversion H; subst; clear H. simpl. split.
  - apply Qdiv_nonneg.
    + apply sum_nonneg. intros x Hx. unfold Np.col in Hx.
      apply in_map_iff in Hx. destruct Hx as (row & <- & Hrow).
      apply get_nonneg. intros z Hz. now apply (Hq row).
    + unfold Qle; simpl. lia.
  - intros p Hp. apply zip_with_In in Hp. destruct Hp as (r & d & _ & _ & ->).
    apply Qdiv_nonneg; [apply Hexp | apply Hsqrt].
Qed.

Lemma fuzzy_iter_nonneg (st st' : fuzzy_state R) :
  fuzzy_iter F R X y k kmeans_X st = Some st' ->
  (forall row x, In row (q R st) -> In x row -> (0 <= x)%Q) ->
  forall row x, In row (q R st') -> In x row -> (0 <= x)%Q.
Proof.
  intros H Hq. unfold fuzzy_iter in H.
  destruct (Np.mapM _ _) as [cs|] eqn:Hcs; [|discriminate].
  inversion H; subst; clear H. simpl. apply normalize_rows_nonneg.
  intros row x Hrow Hx. unfold NpMore.rows_of_cols in Hrow.
  apply in_map_iff in Hrow. destruct Hrow as (i & <- & _).
  apply in_map_iff in Hx. destruct Hx as (col & <- & Hcol).
  apply get_nonneg. intros z Hz.
  apply in_map_iff in Hcol. destruct Hcol as (cl & <- & Hcl).
  apply in_map_iff in Hz. destruct Hz as (p & <- & Hp).
  destruct (mapM_In _ _ _ _ Hcs Hcl) as ([ci m] & _ & Hspec).
  destruct (fuzzy_cluster_nonneg _ _ _ _ Hspec Hq) as [Hlm Hpr].
  apply Qmult_le_0_compat; [exact Hlm | now apply Hpr].
Qed.

End FuzzyNonneg.

(** With a draw of non-negative numbers and an exponential and a square
    root that return non-negative values, every entry of the
    responsibilities is non-negative after the initialisation and after
    any number of passes. *)
Theorem fuzzy_q_nonneg (F : Numeric) (R : Regressor) (X : list (list Q))
    (y : list Q) (k : Z) (kmeans_X : Q) (lr : model R) (rand : list (list Q))
    (lmbda0 : list Q) (probs0 : list (list Q)) (n : nat) (st : fuzzy_state R) :
  (forall x, (0 <= exp F x)%Q) ->
  (forall x, (0 <= sqrt F x)%Q) ->
  (forall row x, In row rand -> In x row -> (0 <= x)%Q) ->
  fuzzy_iterate F R X y k kmeans_X n (fuzzy_init R k lr rand lmbda0 probs0)
  = Some st ->
  forall row x, In row (q R st) -> In x row -> (0 <= x)%Q.
Proof.
  intros Hexp Hsqrt Hrand. revert st; induction n as [|n IH]; intros st H.
  - inversion H; subst. simpl. now apply normalize_rows_nonneg.
  - simpl in H.
    destruct (fuzzy_iterate F R X y k kmeans_X n _) as [prev|]; [|discriminate].
    apply (fuzzy_iter_nonneg F R X y k kmeans_X Hexp Hsqrt prev st H).
    now apply IH.
Qed.

Lemma fuzzy_q_nonneg_witness :
  exists st,
    fuzzy_iterate toy_numeric const_regressor [[0]; [1]]%Q [1; 3]%Q 2 0 2
      small_fuzzy_init = Some st /\
    forall row x, In row (q _ st) -> In x row -> (0 <= x)%Q.
Proof.
  destruct (fuzzy_iterate toy_numeric const_regressor [[0]; [1]]%Q [1; 3]%Q 2 0 2
              small_fuzzy_init) as [st|] eqn:E; [|vm_compute in E; discriminate].
  exists st. split; [reflexivity|].
  apply (fuzzy_q_nonneg toy_numeric const_regressor [[0]; [1]]%Q [1; 3]%Q 2 0
           0%Q [[1; 3]; [2; 2]]%Q [0; 0]%Q [[0; 0]; [0; 0]]%Q 2 st).
  - intros x. vm_compute. discriminate.
  - intros x. vm_compute. discriminate.
  - intros row x [<-|[<-|[]]] [<-|[<-|[]]]; vm_compute; discriminate.
  - exact E.
Defined.

(** ** Responsibilities: the invariant of a defined run *)

Lemma nonzero_spec (x : Q) : nonzero x = true -> ~ (x == 0)%Q.
Proof.
  unfold nonzero. rewrite negb_true_iff. intros H E.
  apply Qeq_bool_iff in E. congruence.
Qed.

Lemma normalize_rows_sum (m : list (list Q)) :
  (forall u, In u m -> ~ (Np.sum u == 0)%Q) ->
  forall row, In row (NpMat.normalize_rows m) -> (Np.sum row == 1)%Q.
Proof.
  intros H row Hrow. unfold NpMat.normalize_rows in Hrow.
  apply in_map_iff in Hrow. destruct Hrow as (u & <- & Hu).
  now apply normalize_row_sum, H.
Qed.

Lemma fuzzy_iterate_models_length (F : Numeric) (R : Regressor) X y k kmeans_X
    (lr : model R) rand lmbda0 probs0 (n : nat) (st : fuzzy_state R) :
  fuzzy_iterate F R X y k kmeans_X n (fuzzy_init R k lr rand lmbda0 probs0)
  = Some st ->
  length (fmodels R st) = Z.to_nat k.
Proof.
  revert st; induction n as [|n IH]; intros st H; simpl in H.
  - inversion H; subst. simpl. now rewrite length_map, range_length.
  - destruct (fuzzy_iterate F R X y k kmeans_X n _) as [prev|]; [|discriminate].
    now apply (fuzzy_iter_spec F R X y k kmeans_X prev st H), IH.
Qed.

(** As long as no pass divides by zero, the responsibilities keep their
    invariant: after the initialisation (on a draw of non-negative numbers
    whose rows do not sum to 0) and after every pass, every entry of [q] is
    non-negative and every row of [q] sums to 1. *)
Theorem fuzzy_q_invariant (F : Numeric) (R : Regressor) (X : list (list Q))
    (y : list Q) (k : Z) (kmeans_X : Q) (lr : model R) (rand : list (list Q))
    (lmbda0 : list Q) (probs0 : list (list Q)) (n : nat) (st : fuzzy_state R) :
  (forall x, (0 <= exp F x)%Q) ->
  (forall x, (0 <= sqrt F x)%Q) ->
  (forall row x, In row rand -> In x row -> (0 <= x)%Q) ->
  (forall row, In row rand -> ~ (Np.sum row == 0)%Q) ->
  run_defined F R X y k kmeans_X (fuzzy_init R k lr rand lmbda0 probs0) n = true ->
  fuzzy_iterate F R X y k kmeans_X n (fuzzy_init R k lr rand lmbda0 probs0)
  = Some st ->
  forall row, In row (q R st) ->
    (forall x, In x row -> (0 <= x)%Q) /\ (Np.sum row == 1)%Q.
Proof.
  intros Hexp Hsqrt Hrand Hnz Hdef Hrun row Hrow. split.
  - intros x Hx.
    exact (fuzzy_q_nonneg F R X y k kmeans_X lr rand lmbda0 probs0 n st
             Hexp Hsqrt Hrand Hrun row x Hrow Hx).
  - destruct n as [|n].
    + inversion Hrun; subst. simpl in Hrow.
      now apply (normalize_rows_sum rand).
    + simpl in Hrun.
      destruct (fuzzy_iterate F R X y k kmeans_X n _) as [prev|] eqn:Hprev;
        [|discriminate].
      pose proof (fuzzy_iterate_models_length _ _ _ _ _ _ _ _ _ _ _ _ Hprev) as Hm.
      destruct (fuzzy_iter_spec F R X y k kmeans_X prev st Hrun Hm)
        as (_ & _ & _ & Hq & _).
      unfold run_defined in Hdef. rewrite forallb_forall in Hdef.
      specialize (Hdef n ltac:(apply in_seq; lia)).
      rewrite Hprev in Hdef. unfold pass_defined in Hdef.
      rewrite Hrun in Hdef.
      destruct (Np.mapM _ _); [|rewrite andb_false_r in Hdef; discriminate].
      apply andb_true_iff in Hdef. destruct Hdef as [_ Hdef].
      apply andb_true_iff in Hdef. destruct Hdef as [_ Hrows].
      rewrite forallb_forall in Hrows.
      rewrite Hq in Hrow. apply (normalize_rows_sum _) in Hrow; [exact Hrow|].
      intros u Hu. now apply nonzero_spec, Hrows.
Qed.

Lemma fuzzy_q_invariant_witness :
  exists st,
    fuzzy_iterate toy_numeric const_regressor [[0]; [1]]%Q [1; 3]%Q 2 0 2
      small_fuzzy_init = Some st /\
    forall row, In row (q _ st) ->
      (forall x, In x row -> (0 <= x)%Q) /\ (Np.sum row == 1)%Q.
Proof.
  destruct (fuzzy_iterate toy_numeric const_regressor [[0]; [1]]%Q [1; 3]%Q 2 0 2
              small_fuzzy_init) as [st|] eqn:E; [|vm_compute in E; discriminate].
  exists st. split; [reflexivity|].
  apply (fuzzy_q_invariant toy_numeric const_regressor [[0]; [1]]%Q [1; 3]%Q 2 0
           0%Q [[1; 3]; [2; 2]]%Q [0; 0]%Q [[0; 0]; [0; 0]]%Q 2 st).
  - intros x. vm_compute. discriminate.
  - intros x. vm_compute. discriminate.
  - intros row x [<-|[<-|[]]] [<-|[<-|[]]]; vm_compute; discriminate.
  - intros row [<-|[<-|[]]]; vm_compute; discriminate.
  - vm_compute. reflexivity.
  - exact E.
Defined.

(** ** [fuzzy_clr]: what a run returns *)

Lemma get_map_opp (v : list Q) (i : Z) : Np.get (map Qopp v) i = (- Np.get v i)%Q.
Proof. unfold Np.get. exact (map_nth Qopp v 0%Q (Z.to_nat i)). Qed.

Lemma argmax_first_max (v : list Q) (j : Z) :
  Np.argmax v = Some j -> first_max v j.
Proof.
  unfold Np.argmax. intros H. apply argmin_first_min in H.
  destruct H as (Hb & Hmin & Hfst). rewrite length_map in Hb, Hmin.
  split; [exact Hb|]. split.
  - intros i Hi. specialize (Hmin i Hi). rewrite !get_map_opp in Hmin.
    apply Qopp_le_compat in Hmin. now rewrite !Qopp_involutive in Hmin.
  - intros i Hi. specialize (Hfst i Hi). rewrite !get_map_opp in Hfst.
    apply Qopp_lt_compat in Hfst. now rewrite !Qopp_involutive in Hfst.
Qed.

Lemma fuzzy_loop_total (F : Numeric) (R : Regressor) X y k kmeans_X
    (max_iter : nat) (st : fuzzy_state R) :
  length y = length X ->
  (forall m X', length (predict R m X') = length X') ->
  fuzzy_loop F R X y k kmeans_X max_iter st <> None.
Proof.
  intros Hy Hp. revert st; induction max_iter as [|m IH]; intros st; simpl;
    [discriminate|].
  destruct (fuzzy_iter F R X y k kmeans_X st) as [st'|] eqn:E.
  - destruct (q_close _ _); [discriminate | apply IH].
  - exfalso. revert E. now apply fuzzy_iter_total.
Qed.

Lemma fuzzy_loop_last (F : Numeric) (R : Regressor) X y k kmeans_X (m : nat)
    (st fin : fuzzy_state R) :
  fuzzy_loop F R X y k kmeans_X (S m) st = Some fin ->
  length (fmodels R st) = Z.to_nat k ->
  exists prev,
    fuzzy_iter F R X y k kmeans_X prev = Some fin /\
    length (fmodels R prev) = Z.to_nat k.
Proof.
  revert st; induction m as [|m IH]; intros st H Hm; simpl in H.
  - destruct (fuzzy_iter F R X y k kmeans_X st) as [st'|] eqn:E; [|discriminate].
    exists st. split; [|exact Hm].
    destruct (q_close _ _); inversion H; subst; exact E.
  - destruct (fuzzy_iter F R X y k kmeans_X st) as [st'|] eqn:E; [|discriminate].
    destruct (q_close (q R st) (q R st')).
    + inversion H; subst. exists st. split; [exact E | exact Hm].
    + apply (IH st' H). now apply (fuzzy_iter_spec F R X y k kmeans_X st st' E).
Qed.

(** The products [lmbda * probs] left by a pass on non-negative
    responsibilities are non-negative. *)
Lemma fuzzy_unnormalized_nonneg (F : Numeric) (R : Regressor) X y k kmeans_X
    (st st' : fuzzy_state R) :
  (forall x, (0 <= exp F x)%Q) ->
  (forall x, (0 <= sqrt F x)%Q) ->
  fuzzy_iter F R X y k kmeans_X st = Some st' ->
  (forall row x, In row (q R st) -> In x row -> (0 <= x)%Q) ->
  forall row x, In row (unnormalized R st') -> In x row -> (0 <= x)%Q.
Proof.
  intros Hexp Hsqrt H Hq. unfold fuzzy_iter in H.
  destruct (Np.mapM _ _) as [cs|] eqn:Hcs; [|discriminate].
  inversion H; subst; clear H. unfold unnormalized. simpl.
  assert (Hcl : forall cl, In cl cs ->
            (0 <= c_lmbda R cl)%Q /\ forall p, In p (c_probs R cl) -> (0 <= p)%Q).
  { intros cl Hin. destruct (mapM_In _ _ _ _ Hcs Hin) as ([ci m] & _ & Hspec).
    exact (fuzzy_cluster_nonneg F R X y kmeans_X Hexp Hsqrt _ _ _ _ Hspec Hq). }
  intros row x Hrow Hx.
  apply in_map_iff in Hrow. destruct Hrow as (pr & <- & Hpr).
  apply zip_with_In in Hx. destruct Hx as (l & p & Hl & Hp & ->).
  apply Qmult_le_0_compat.
  - apply in_map_iff in Hl. destruct Hl as (cl & <- & Hin).
    exact (proj1 (Hcl cl Hin)).
  - unfold NpMore.rows_of_cols in Hpr. apply in_map_iff in Hpr.
    destruct Hpr as (i & <- & _). apply in_map_iff in Hp.
    destruct Hp as (col & <- & Hcol). apply get_nonneg.
    apply in_map_iff in Hcol. destruct Hcol as (cl & <- & Hin).
    exact (proj2 (Hcl cl Hin)).
Qed.

(** A run of [fuzzy_clr] none of whose passes divides by zero, on a draw
    of non-negative numbers whose rows do not sum to zero, with [k > 0], at
    least one pass, one target per point and a regressor that predicts one
    value per row, raises nothing.  The label of every point is the first
    index of the maximum of its row of the final responsibilities, so it
    lies in [[0, k)]; the weights returned are the mixing weights [lmbda]
    of the last pass; and the objective is the negative log-likelihood of
    the [lmbda] and [probs] of that pass, also when the loop left early:
    a sum of logarithms of positive numbers. *)
Theorem fuzzy_clr_returns (F : Numeric) (R : Regressor) (X : list (list Q))
    (y : list Q) (k : Z) (kmeans_X : Q) (lr : model R) (max_iter : nat)
    (rand : list (list Q)) (lmbda0 : list Q) (probs0 : list (list Q)) :
  0 < k ->
  length y = length X ->
  (forall m X', length (predict R m X') = length X') ->
  (0 < max_iter)%nat ->
  (forall x, (0 <= exp F x)%Q) ->
  (forall x, (0 <= sqrt F x)%Q) ->
  (forall row x, In row rand -> In x row -> (0 <= x)%Q) ->
  (forall row, In row rand -> ~ (Np.sum row == 0)%Q) ->
  (forall fin,
     fuzzy_loop F R X y k kmeans_X max_iter (fuzzy_init R k lr rand lmbda0 probs0)
     = Some fin ->
     run_defined F R X y k kmeans_X (fuzzy_init R k lr rand lmbda0 probs0)
       (fit_count R fin) = true) ->
  exists res prev fin,
    fuzzy_clr F R X y k kmeans_X lr max_iter rand lmbda0 probs0 = Some res /\
    fuzzy_loop F R X y k kmeans_X max_iter (fuzzy_init R k lr rand lmbda0 probs0)
    = Some fin /\
    fuzzy_iter F R X y k kmeans_X prev = Some fin /\
    length (r_labels res) = length X /\
    (forall i, (i < length X)%nat ->
       first_max (nth i (q R fin) []) (nth i (r_labels res) 0) /\
       0 <= nth i (r_labels res) 0 < k) /\
    r_weights res = lmbda R fin /\
    r_obj res = Fin (neg_loglike F (lmbda R fin) (probs R fin)) /\
    (forall row, In row (unnormalized R fin) -> (0 < Np.sum row)%Q) /\
    length (r_models res) = Z.to_nat k.
Proof.
  intros Hk Hy Hp Hit Hexp Hsqrt Hrand _ Hdef.
  set (st0 := fuzzy_init R k lr rand lmbda0 probs0) in *.
  destruct (fuzzy_loop F R X y k kmeans_X max_iter st0) as [fin|] eqn:Hloop.
  2:{ exfalso. revert Hloop. now apply fuzzy_loop_total. }
  specialize (Hdef fin eq_refl).
  destruct (fuzzy_loop_trace F R X y k kmeans_X max_iter st0 fin Hloop)
    as (n & Hn & Hrun & Hcount & _ & Hstop).
  rewrite Hcount in Hdef. change (fit_count R st0) with 0%nat in Hdef.
  simpl plus in Hdef.
  assert (Hpos : exists n', n = S n').
  { destruct n as [|n']; [|now exists n'].
    destruct Hstop as (j & Hj & _); [lia | discriminate]. }
  destruct Hpos as (n' & ->). simpl in Hrun.
  destruct (fuzzy_iterate F R X y k kmeans_X n' st0) as [prev|] eqn:Hprev;
    [|discriminate].
  pose proof (fuzzy_iterate_models_length _ _ _ _ _ _ _ _ _ _ _ _ Hprev) as Hm.
  destruct (fuzzy_iter_spec F R X y k kmeans_X prev fin Hrun Hm)
    as (Hfm & _ & _ & _ & HqN & Hqw).
  destruct (mapM_total Np.argmax (q R fin)) as [lbl Hlbl].
  { intros row Hrow. unfold Np.argmax. apply argmin_total. intros E.
    apply (f_equal (@length Q)) in E. rewrite length_map, (Hqw row Hrow) in E.
    simpl in E. lia. }
  assert (Hll : length lbl = length X)
    by (rewrite (mapM_length _ _ _ Hlbl); exact HqN).
  destruct (rebuild_models_total R X y k Hy lbl (fmodels R fin) Hll) as [ms Hms].
  unfold fuzzy_clr. fold st0. rewrite Hloop. unfold NpMat.argmax_axis1.
  destruct (k =? 0) eqn:Hk0; [lia|]. rewrite Hlbl, Hms.
  eexists. exists prev, fin. split; [reflexivity|]. split; [reflexivity|].
  split; [exact Hrun|]. simpl.
  split; [exact Hll|].
  split; [|split; [reflexivity | split; [reflexivity | split]]].
  - intros i Hi.
    pose proof (mapM_nth Np.argmax (q R fin) lbl [] 0 i Hlbl ltac:(lia)) as Hnth.
    apply argmax_first_max in Hnth. split; [exact Hnth|].
    destruct Hnth as (Hb & _). rewrite (Hqw (nth i (q R fin) [])) in Hb; [lia|].
    apply nth_In. lia.
  - intros row Hrow.
    assert (Hnn : forall x, In x row -> (0 <= x)%Q).
    { intros x Hx.
      apply (fuzzy_unnormalized_nonneg F R X y k kmeans_X prev fin Hexp Hsqrt Hrun)
        with (row := row); [|exact Hrow | exact Hx].
      exact (fuzzy_q_nonneg F R X y k kmeans_X lr rand lmbda0 probs0 n' prev
               Hexp Hsqrt Hrand Hprev). }
    assert (Hne : ~ (Np.sum row == 0)%Q).
    { unfold run_defined in Hdef. rewrite forallb_forall in Hdef.
      specialize (Hdef n' ltac:(apply in_seq; lia)).
      rewrite Hprev in Hdef. unfold pass_defined in Hdef. rewrite Hrun in Hdef.
      destruct (Np.mapM _ _); [|rewrite andb_false_r in Hdef; discriminate].
      apply andb_true_iff in Hdef. destruct Hdef as [_ Hdef].
      apply andb_true_iff in Hdef. destruct Hdef as [_ Hrows].
      rewrite forallb_forall in Hrows. now apply nonzero_spec, Hrows. }
    destruct (Qlt_le_dec 0 (Np.sum row)) as [Hlt|Hle]; [exact Hlt|].
    exfalso. apply Hne. apply Qle_antisym; [exact Hle | now apply sum_nonneg].
  - eapply rebuild_models_length; eauto.
Qed.

Lemma fuzzy_clr_returns_witness :
  exists res prev fin,
    fuzzy_clr toy_numeric const_regressor [[0]; [1]]%Q [1; 3]%Q 2 0 0%Q 5
      [[1; 3]; [2; 2]]%Q [0; 0]%Q [[0; 0]; [0; 0]]%Q = Some res /\
    fuzzy_loop toy_numeric const_regressor [[0]; [1]]%Q [1; 3]%Q 2 0 5
      small_fuzzy_init = Some fin /\
    fuzzy_iter toy_numeric const_regressor [[0]; [1]]%Q [1; 3]%Q 2 0 prev
    = Some fin /\
    length (r_labels res) = 2%nat /\
    (forall i, (i < 2)%nat ->
       first_max (nth i (q _ fin) []) (nth i (r_labels res) 0) /\
       0 <= nth i (r_labels res) 0 < 2) /\
    r_weights res = lmbda _ fin /\
    r_obj res = Fin (neg_loglike toy_numeric (lmbda _ fin) (probs _ fin)) /\
    (forall row, In row (unnormalized _ fin) -> (0 < Np.sum row)%Q) /\
    length (r_models res) = 2%nat.
Proof.
  apply (fuzzy_clr_returns toy_numeric const_regressor [[0]; [1]]%Q [1; 3]%Q 2 0
           0%Q 5 [[1; 3]; [2; 2]]%Q [0; 0]%Q [[0; 0]; [0; 0]]%Q).
  - lia.
  - reflexivity.
  - intros m X'. simpl. apply length_map.
  - lia.
  - intros x. vm_compute. discriminate.
  - intros x. vm_compute. discriminate.
  - intros row x [<-|[<-|[]]] [<-|[<-|[]]]; vm_compute; discriminate.
  - intros row [<-|[<-|[]]]; vm_compute; discriminate.
  - intros fin E. vm_compute in E. inversion E; subst; clear E.
    vm_compute. reflexivity.
Defined.

(** ** [clr] with constraint groups *)




(** ** Every point in a group of its own *)

Lemma Qle_bool_ext (a a' b b' : Q) :
  (a == a')%Q -> (b == b')%Q -> Qle_bool a b = Qle_bool a' b'.
Proof.
  intros Ha Hb. destruct (Qle_bool a b) eqn:E1, (Qle_bool a' b') eqn:E2; auto.
  - apply Qle_bool_iff in E1. rewrite Ha, Hb in E1.
    apply Qle_bool_iff in E1. congruence.
  - apply Qle_bool_iff in E2. rewrite <- Ha, <- Hb in E2.
    apply Qle_bool_iff in E2. congruence.
Qed.

Lemma argmin_from_ext (v w : list Q) (i bi : Z) (b b' : Q) :
  Forall2 Qeq v w -> (b == b')%Q ->
  Np.argmin_from i bi b v = Np.argmin_from i bi b' w.
Proof.
  intros H. revert i bi b b'.
  induction H as [|x z v w Hxz _ IH]; intros i bi b b' Hb; simpl; [reflexivity|].
  rewrite (Qle_bool_ext b b' x z Hb Hxz).
  destruct (Qle_bool b' z); now apply IH.
Qed.

(** [np.argmin] depends on the values of the entries only. *)
Lemma argmin_ext (v w : list Q) : Forall2 Qeq v w -> Np.argmin v = Np.argmin w.
Proof.
  intros H. destruct H as [|x z v w Hxz H]; simpl; [reflexivity|].
  f_equal. now apply argmin_from_ext.
Qed.

Lemma Forall2_map_same {A} (f g : A -> Q) (l : list A) :
  (forall x, In x l -> (f x == g x)%Q) -> Forall2 Qeq (map f l) (map g l).
Proof.
  induction l as [|x l IH]; intros H; simpl; constructor.
  - apply H. simpl; auto.
  - apply IH. intros; apply H; simpl; auto.
Qed.

Lemma round64_ext (x z : Q) : (x == z)%Q -> Np.round64 x = Np.round64 z.
Proof. intros H. unfold Np.round64. now rewrite (Qred_complete x z H). Qed.

(** The float64 mean over a single row of floats is that row: nothing is
    added, and dividing a float by 1 is exact. *)
Lemma mean_single_row (k : Z) (row : list Q) :
  Z.of_nat (length row) = k ->
  (forall x, In x row -> Np.is_float x) ->
  Np.argmin (Np.mean_axis0 k [row]) = Np.argmin row.
Proof.
  intros Hk Hfl. rewrite <- (map_get_range row) at 2. rewrite Hk.
  apply argmin_ext. unfold Np.mean_axis0. apply Forall2_map_same.
  intros c Hc. apply range_In in Hc.
  cbn [Np.col map Np.fsum fold_left length]. unfold Np.fdiv.
  rewrite (round64_ext (Np.get row c / inject_Z (Z.of_nat 1)) (Np.get row c))
    by (unfold Qdiv; change (/ inject_Z (Z.of_nat 1))%Q with 1%Q; ring).
  apply Hfl. unfold Np.get. apply nth_In. lia.
Qed.

Lemma select_later {A} (a : list A) (s t : Z) (n : nat) :
  s < t -> Np.select (map (Z.eqb s) (Np.range_from t n)) a = [].
Proof.
  revert t n; induction a as [|x a IH]; intros t [|n] Ht; simpl; auto.
  replace (s =? t) with false by (symmetry; apply Z.eqb_neq; lia).
  apply IH. lia.
Qed.

(** The mask [arange(n) == i] selects row [i] alone. *)
Lemma select_indicator {A} (a : list A) (d : A) (n : nat) (s : Z) (i : nat) :
  length a = n -> (i < n)%nat ->
  Np.select (map (Z.eqb (s + Z.of_nat i)) (Np.range_from s n)) a = [nth i a d].
Proof.
  revert a s i; induction n as [|n IH]; intros a s i Hl Hi; [lia|].
  destruct a as [|x a]; [discriminate|].
  destruct i as [|i].
  - cbn [Np.range_from map Np.select nth]. rewrite Z.add_0_r, Z.eqb_refl.
    f_equal. apply select_later. lia.
  - cbn [Np.range_from map Np.select nth].
    replace (s + Z.of_nat (S i) =? s) with false
      by (symmetry; apply Z.eqb_neq; lia).
    replace (s + Z.of_nat (S i)) with (s + 1 + Z.of_nat i) by lia.
    apply IH; simpl in *; lia.
Qed.

(** With every point in a group of its own ([constr = arange(N)]) the
    constrained branch of [reassign_labels] returns what the unconstrained
    branch returns, for a non-empty array of float scores of shape
    [(N, k)], [k > 0]: the float64 mean over a single row is that row, so
    the loop over the groups is a row-wise argmin. *)
Theorem reassign_labels_singleton_groups (uninit uninit' : list Z) (k : Z)
    (scores : list (list Q)) :
  0 < k -> scores <> [] -> length uninit = length scores ->
  (forall row, In row scores -> Z.of_nat (length row) = k) ->
  (forall row x, In row scores -> In x row -> Np.is_float x) ->
  reassign_labels uninit k scores (Some (Np.range (Z.of_nat (length scores))))
  = reassign_labels uninit' k scores None.
Proof.
  intros Hk Hne Hu Hw Hfl. unfold reassign_labels, Np.range. rewrite Nat2Z.id.
  set (N := length scores). set (cs := Np.range_from 0 N).
  assert (HN : (0 < N)%nat) by (unfold N; destruct scores; simpl; [congruence | lia]).
  assert (Hcs : length cs = length scores) by apply range_from_length.
  assert (Hnth : forall i, (i < N)%nat -> nth i cs 0 = Z.of_nat i)
    by (intros i Hi; unfold cs; rewrite range_from_nth by exact Hi; lia).
  destruct (Np.max cs) as [mx|] eqn:Hmx;
    [|exfalso; unfold cs in Hmx; destruct N; [lia | discriminate]].
  destruct (constrained_loop_inv k scores cs Hk Hcs
              (Np.range_from 0 (Z.to_nat (mx + 1))) uninit Hu)
    as (lbl & Hfold & Hlen & Hinv).
  rewrite Hfold.
  unfold Np.argmin_axis1.
  replace (k =? 0) with false by (symmetry; apply Z.eqb_neq; lia).
  destruct (mapM_total Np.argmin scores) as [ys Hys].
  { intros row Hrow. apply argmin_total. intros ->.
    specialize (Hw [] Hrow). simpl in Hw. lia. }
  rewrite Hys. f_equal.
  apply (nth_ext _ _ 0 0).
  - rewrite Hlen. symmetry. exact (mapM_length _ _ _ Hys).
  - intros i Hi. rewrite Hlen in Hi.
    destruct (Hinv i Hi) as [Hin _].
    assert (Hmem : In (nth i cs 0) (Np.range_from 0 (Z.to_nat (mx + 1)))).
    { apply range_from_In. rewrite Hnth by exact Hi.
      assert (Z.of_nat i <= mx).
      { apply (max_ge cs mx Hmx). rewrite <- (Hnth i Hi).
        apply nth_In. rewrite Hcs. exact Hi. }
      lia. }
    specialize (Hin Hmem). rewrite Hnth in Hin by exact Hi.
    unfold group_rows, cs in Hin.
    rewrite <- (Z.add_0_l (Z.of_nat i)) in Hin.
    rewrite (select_indicator scores [] N 0 i eq_refl Hi) in Hin.
    rewrite mean_single_row in Hin;
      [|apply Hw, nth_In; exact Hi
       |intros x Hx; apply (Hfl (nth i scores [])); [apply nth_In; exact Hi | exact Hx]].
    rewrite (mapM_nth Np.argmin scores ys [] 0 i Hys Hi) in Hin.
    congruence.
Qed.

Lemma reassign_labels_singleton_groups_witness :
  reassign_labels [7; 7; 7] 2 [[3; 1]; [0; 5]; [2; 2]]%Q
    (Some (Np.range (Z.of_nat (length [[3; 1]; [0; 5]; [2; 2]]%Q))))
  = reassign_labels [] 2 [[3; 1]; [0; 5]; [2; 2]]%Q None.
Proof.
  apply (reassign_labels_singleton_groups [7; 7; 7] [] 2
           [[3; 1]; [0; 5]; [2; 2]]%Q).
  - lia.
  - discriminate.
  - reflexivity.
  - intros row [<-|[<-|[<-|[]]]]; reflexivity.
  - intros row x [<-|[<-|[<-|[]]]] [<-|[<-|[]]]; vm_compute; reflexivity.
Defined.
